(** * discord-starboard-archiver: a shallow embedding of [src/index.ts]

    The archiver walks the history of a starboard channel, recognises the
    starboard posts, resolves their media, downloads them and keeps an
    index of what it archived.  This file embeds the functions of
    [src/index.ts] and states the properties of the archival pipeline.

    Conventions of the embedding.
    - A JavaScript string is a [string] holding its UTF-8 encoding.  Every
      literal the source compares with is well formed, separators are
      ASCII, and [length] is only ever compared with [0] or used to cut an
      ASCII suffix, so prefix tests, splits and emptiness tests agree with
      the UTF-16 operations of the source.
    - A JavaScript number that holds a star count or an attachment index
      is an integer below [2^53], where [parseInt] and [++] are exact and
      template interpolation prints the decimal numeral; it is a [Z] or a
      [nat].  The numbers [Number(snowflake)] are not in that range: they
      are modelled by their binary64 rounding.
    - Requests (to the platform, to the media hosts) are functions of the
      world: the same request gets the same answer throughout a run.
    - [console.log] is not part of the model; [console.error] is (it is
      the only trace the resolver leaves of a failed fetch). *)

From Stdlib Require Import ZArith Ascii String DecimalString DecimalPos Lia.
From Stdlib Require Import Sorting.Sorted Sorting.Permutation.
From stdpp Require Import base option list strings gmap.

Local Open Scope string_scope.

(** ** JavaScript string primitives used by the source *)

Module JS.

(** A value that may be [undefined] or [null].  The source tells the two
    apart ([!== null], [!== undefined]), so the embedding does too. *)
Inductive opt (A : Type) : Type :=
| Undefined
| Null
| Value (a : A).
Arguments Undefined {A}.
Arguments Null {A}.
Arguments Value {A} a.

Definition notNull {A} (x : opt A) : bool :=
  match x with Null => false | _ => true end.

Definition notUndefined {A} (x : opt A) : bool :=
  match x with Undefined => false | _ => true end.

(** [xs[i]] *)
Definition index {A} (xs : list A) (i : nat) : opt A :=
  match xs !! i with Some a => Value a | None => Undefined end.

(** [xs.flat()] on an array whose elements are arrays or not: an array
    is spliced in, anything else stays as one element. *)
Definition flat {A} (xs : list (opt (list (opt A)))) : list (opt A) :=
  flat_map (fun x => match x with
                     | Value ys => ys
                     | Undefined => [Undefined]
                     | Null => [Null]
                     end) xs.

(** [s.startsWith(p)] *)
Fixpoint startsWith (s p : string) {struct p} : bool :=
  match p with
  | EmptyString => true
  | String a p' =>
      match s with
      | EmptyString => false
      | String b s' => Ascii.eqb a b && startsWith s' p'
      end
  end.

(** [s.endsWith(p)]: some suffix of [s] is [p]. *)
Fixpoint endsWith (s p : string) : bool :=
  String.eqb s p
  || match s with
     | EmptyString => false
     | String _ s' => endsWith s' p
     end.

(** [s.slice(0, -k)]: [s] without its last [k] characters. *)
Definition slice_to_minus (s : string) (k : nat) : string :=
  substring 0 (String.length s - k) s.

(** [s.split(sep)] for a one-character separator.  The result is never
    empty: [''.split('.')] is [['']]. *)
Fixpoint split (sep : ascii) (s : string) : list string :=
  match s with
  | EmptyString => [EmptyString]
  | String c s' =>
      if Ascii.eqb c sep then EmptyString :: split sep s'
      else match split sep s' with
           | [] => [String c EmptyString]
           | h :: t => String c h :: t
           end
  end.

(** [xs.pop()] read as a value: the last element, [undefined] when the
    array is empty. *)
Definition pop {A} (xs : list A) : option A := last xs.

(** [xs.join(sep)]; [null] and [undefined] elements print as the empty
    string. *)
Definition printed (x : opt string) : string :=
  match x with Value s => s | _ => EmptyString end.

Fixpoint join (sep : string) (xs : list (opt string)) : string :=
  match xs with
  | [] => EmptyString
  | [x] => printed x
  | x :: rest => printed x +:+ sep +:+ join sep rest
  end.

(** Truthiness of a string that may be missing. *)
Definition truthy (o : opt string) : bool :=
  match o with
  | Value s => negb (String.eqb s EmptyString)
  | _ => false
  end.

(** Template interpolation [`${n}`] of an integer-valued number. *)
Definition Number_toString (n : Z) : string :=
  NilZero.string_of_int (Z.to_int n).

Definition isDigit (c : ascii) : bool :=
  let n := nat_of_ascii c in (48 <=? n)%nat && (n <=? 57)%nat.

(** The longest run of decimal digits at the head of [s], and the rest. *)
Fixpoint spanDigits (s : string) : string * string :=
  match s with
  | EmptyString => (EmptyString, EmptyString)
  | String c s' =>
      if isDigit c
      then let '(ds, rest) := spanDigits s' in (String c ds, rest)
      else (EmptyString, s)
  end.

(** The integer a string of decimal digits denotes. *)
Definition digitsValue (ds : string) : Z :=
  fold_left (fun acc c => 10 * acc + (Z.of_nat (nat_of_ascii c) - 48))%Z
            (list_ascii_of_string ds) 0%Z.

(** [s] without its first [n] characters. *)
Definition drop (n : nat) (s : string) : string :=
  substring n (String.length s - n) s.

(** All the suffixes of [s], longest first: the positions a regular
    expression search tries, left to right. *)
Fixpoint suffixes (s : string) : list string :=
  s :: match s with
       | EmptyString => []
       | String _ s' => suffixes s'
       end.

End JS.

(** ** Data model *)

(** The line feed; the source writes it ['\n']. *)
Definition LF : string := String (ascii_of_nat 10) EmptyString.

(** A discord.js [Embed]: [description] is [string | null], [image?.url]
    and [video?.url] are [string | undefined]. *)
Record Embed := mkEmbed {
  description : JS.opt string;
  image_url : JS.opt string;
  video_url : JS.opt string
}.

(** A component inside an action row.  A [ButtonComponent] carries
    [url : string | null]; the other kinds (selects, text inputs) carry
    none. *)
Inductive Component :=
| Button (url : JS.opt string)
| OtherComponent.

(** A top-level component of a message. *)
Inductive TopLevelComponent :=
| ActionRow (components : list Component)
| OtherTopLevel.

(** The part of a discord.js [Message] the archiver reads. *)
Record Message := mkMessage {
  id : string;
  content : string;
  author_bot : bool;
  url : string;
  attachments : list string;      (* [attachment.url], in native order *)
  embeds : list Embed;
  components : list TopLevelComponent
}.

(** One entry of [MessageArchive['attachments']]. *)
Record ArchivedAttachment := mkArchivedAttachment {
  att_url : string;
  localFile : string
}.

Record MessageArchive := mkMessageArchive {
  snowflake : string;
  archiveId : string;
  ma_url : string;
  stars : Z;
  textContent : option string;
  ma_attachments : list ArchivedAttachment
}.

(** ** Message classifier *)

(** The literal the source tests the body against: the star glyph U+2B50,
    a space and two asterisks. *)
Definition starPrefix : string := "⭐ **".

Definition isStarboardMessage (message : Message) : bool :=
  JS.startsWith (content message) starPrefix && author_bot message.

(** [starCountRegex] tried at the head of [s]: the star glyph, a space,
    two asterisks, one or more digits (as many as there are: a digit is
    never an asterisk, so the greedy match is the only one), two asterisks.
    The result is capture group 1. *)
Definition starCountRegex_at (s : string) : option string :=
  if JS.startsWith s starPrefix then
    let '(ds, rest) := JS.spanDigits (JS.drop (String.length starPrefix) s) in
    if negb (String.eqb ds EmptyString) && JS.startsWith rest "**"
    then Some ds else None
  else None.

(** [content.match(starCountRegex)]: the first position where the
    expression matches. *)
Definition starCountRegex_match (s : string) : option string :=
  list_find (fun t => is_Some (starCountRegex_at t)) (JS.suffixes s)
    ≫= fun '(_, t) => starCountRegex_at t.

Definition getStars (message : Message) : Z :=
  match starCountRegex_match (content message) with
  | Some ds => JS.digitsValue ds
  | None => 0%Z
  end.

Definition getTextContent (message : Message) : option string :=
  let embedDescriptions :=
    JS.join (LF +:+ LF) (map description (embeds message)) in
  if (0 <? String.length embedDescriptions)%nat
  then Some embedDescriptions else None.

(** ** Attachment resolver *)

(** The result of one request to the platform. *)
Inductive Fetch (A : Type) : Type :=
| Fetched (a : A)
| FetchFailed.
Arguments Fetched {A} a.
Arguments FetchFailed {A}.

(** What [client.channels.fetch] resolves to: a text-based channel, whose
    [messages.fetch] is again a request, or a channel that holds no
    messages. *)
Inductive Channel :=
| TextBased (messages_fetch : JS.opt string -> Fetch Message)
| NotTextBased.

(** The platform as the resolver sees it through [message.client].
    [channels_fetch] resolves to a channel or to [null]. *)
Record Client := mkClient {
  channels_fetch : JS.opt string -> Fetch (JS.opt Channel)
}.

(** [Promise.all] over requests: it rejects as soon as one of them does. *)
Fixpoint promiseAll {A} (ps : list (Fetch A)) : Fetch (list A) :=
  match ps with
  | [] => Fetched []
  | FetchFailed :: _ => FetchFailed
  | Fetched a :: rest =>
      match promiseAll rest with
      | Fetched l => Fetched (a :: l)
      | FetchFailed => FetchFailed
      end
  end.

Definition permalinkPrefix : string := "https://discord.com/channels".
Definition cdnPrefix : string := "https://cdn.discordapp.com".
Definition mediaPrefix : string := "https://media.discordapp.net".

Definition isPermalink (u : string) : bool := JS.startsWith u permalinkPrefix.

Definition isCdn (u : string) : bool :=
  JS.startsWith u cdnPrefix || JS.startsWith u mediaPrefix.

Definition Component_url (c : Component) : JS.opt string :=
  match c with
  | Button u => u
  | OtherComponent => JS.Undefined
  end.

(** The predicate of the inner [filter]: a button whose [url] is a string
    that passes [keep] (a test on its prefix). *)
Definition buttonPasses (keep : string -> bool) (c : Component) : bool :=
  match c with
  | Button (JS.Value u) => keep u
  | _ => false
  end.

(** A value the type guard [url is string] has let through, as a string. *)
Definition definedUrl (u : JS.opt string) : option string :=
  match u with JS.Value s => Some s | _ => None end.

(** The [flatMap] over [message.components] that both resolvers run: of
    every action row, the buttons that pass, mapped to their [url]; then
    the [url !== null] filter. *)
Definition buttonUrls (keep : string -> bool) (message : Message) : list string :=
  omap definedUrl
    (List.filter JS.notNull
      (flat_map
        (fun component =>
           match component with
           | ActionRow cs => map Component_url (List.filter (buttonPasses keep) cs)
           | OtherTopLevel => []
           end)
        (components message))).

(** A resolved URL list, with the lines written to [console.error] (the
    [id] of each message whose cross-references could not be fetched).
    [None] is a promise that never settles.  No statement of
    [getAttachmentUrls] throws on a message, and [getAdvancedAttachments]
    catches what its requests throw, so neither has a rejected outcome. *)
Definition Resolution : Type := option (list (JS.opt string) * list string).

(** The callback of the first [Promise.all] of [getAdvancedAttachments]:
    the message a permalink points at; [undefined] when its channel is
    [null] or not text-based (the callback then returns nothing). *)
Definition fetchLinked (client : Client) (link : string) : Fetch (JS.opt Message) :=
  let splitLink := JS.split "/" link in
  let channelId := JS.index splitLink 5 in
  let messageId := JS.index splitLink 6 in
  match channels_fetch client channelId with
  | FetchFailed => FetchFailed
  | Fetched (JS.Value (TextBased messages_fetch)) =>
      match messages_fetch messageId with
      | Fetched message => Fetched (JS.Value message)
      | FetchFailed => FetchFailed
      end
  | Fetched _ => Fetched JS.Undefined
  end.

(** The callback of the second [Promise.all] of [getAdvancedAttachments]:
    [if (message) return await getAttachmentUrls(message)], with that call
    taken as [resolve]; nothing is returned for a missing message. *)
Definition resolveLinked (resolve : Message -> Resolution) (m : JS.opt Message)
    : option (JS.opt (list (JS.opt string)) * list string) :=
  match m with
  | JS.Value message' => '(urls, errs) ← resolve message'; Some (JS.Value urls, errs)
  | _ => Some (JS.Undefined, [])
  end.

Section Resolver.
Variable client : Client.

(** [getAdvancedAttachments], with the call to [getAttachmentUrls] it
    makes on every fetched message taken as [resolve]. *)
Definition getAdvancedAttachments_with
    (resolve : Message -> Resolution) (message : Message) : Resolution :=
  let messageLinks := buttonUrls isPermalink message in
  match promiseAll (map (fetchLinked client) messageLinks) with
  | FetchFailed => Some ([], [id message])
  | Fetched messages =>
      results ← mapM (resolveLinked resolve) messages;
      Some (JS.flat (List.filter JS.notNull (map fst results)),
            concat (map snd results))
  end.

(** [getAttachmentUrls], with its call to [getAdvancedAttachments] taken
    as [advanced]. *)
Definition getAttachmentUrls_with
    (advanced : Message -> Resolution) (message : Message) : Resolution :=
  let attachments := map JS.Value (attachments message) in
  let embedImages :=
    List.filter JS.notUndefined (map image_url (embeds message)) in
  let embedVideos :=
    List.filter JS.notUndefined (map video_url (embeds message)) in
  let buttonLinks := buttonUrls (fun u => negb (isPermalink u)) message in
  '(buttonLinks, advancedAttachments, errs) ←
    (if (0 <? length buttonLinks)%nat
     then if (0 <? length (List.filter isCdn buttonLinks))%nat
          then '(advancedAttachments, errs) ← advanced message;
               Some (List.filter (fun u => negb (isCdn u)) buttonLinks,
                     advancedAttachments, errs)
          else Some (buttonLinks, [], [])
     else Some (buttonLinks, [], []));
  Some ((attachments ++ embedImages ++ embedVideos
           ++ map JS.Value buttonLinks ++ advancedAttachments)%list, errs).

(** The two functions call each other through the messages the first
    one fetches, and nothing bounds the chain of references; [fuel]
    bounds the depth of the nested calls. *)
Fixpoint getAttachmentUrls (fuel : nat) (message : Message) : Resolution :=
  match fuel with
  | O => None
  | S fuel' =>
      getAttachmentUrls_with
        (getAdvancedAttachments_with (getAttachmentUrls fuel')) message
  end.

Definition getAdvancedAttachments (fuel : nat) (message : Message) : Resolution :=
  getAdvancedAttachments_with (getAttachmentUrls fuel) message.

End Resolver.

(** ** Archive record builder *)

(** The settling of a promise: a value, a rejection (an exception nobody
    catches), or never. *)
Inductive Outcome (A : Type) : Type :=
| Resolved (a : A)
| Rejected
| Pending.
Arguments Resolved {A} a.
Arguments Rejected {A}.
Arguments Pending {A}.

(** [attachment.split('.').pop()?.split('?')[0]] *)
Definition rawExt (attachment : string) : JS.opt string :=
  match JS.pop (JS.split "." attachment) with
  | Some segment => JS.index (JS.split "?" segment) 0
  | None => JS.Undefined
  end.

(** The [':large'] suffix is cut after the emptiness test. *)
Definition stripLarge (ext : string) : string :=
  if JS.endsWith ext ":large" then JS.slice_to_minus ext 6 else ext.

Definition fileName (archiveId : string) (stars : Z) (attachmentNumber : nat)
    (ext : string) : string :=
  archiveId +:+ "_" +:+ JS.Number_toString stars +:+ "-stars_"
    +:+ JS.Number_toString (Z.of_nat attachmentNumber) +:+ "." +:+ ext.

(** The [for] loop of [getAttachments], from [attachmentNumber] on.  An
    element that is not a string has no [split]: the call throws a
    [TypeError] ([None]) and the list built so far is lost. *)
Fixpoint getAttachments_loop (attachmentUrls : list (JS.opt string))
    (archiveId : string) (stars : Z) (attachmentNumber : nat)
    : option (list ArchivedAttachment) :=
  match attachmentUrls with
  | [] => Some []
  | JS.Value attachment :: rest =>
      let ext := rawExt attachment in
      if negb (JS.truthy ext)
      then getAttachments_loop rest archiveId stars attachmentNumber
      else
        tail ← getAttachments_loop rest archiveId stars (S attachmentNumber);
        Some ({| att_url := attachment;
                 localFile := fileName archiveId stars attachmentNumber
                                (stripLarge (JS.printed ext)) |} :: tail)
  | _ :: _ => None
  end.

Definition getAttachments (client : Client) (fuel : nat) (message : Message)
    (archiveId : string) (stars : Z)
    : Outcome (list ArchivedAttachment * list string) :=
  match getAttachmentUrls client fuel message with
  | None => Pending
  | Some (attachmentUrls, errs) =>
      match getAttachments_loop attachmentUrls archiveId stars 0 with
      | Some attachments => Resolved (attachments, errs)
      | None => Rejected
      end
  end.

(** ** Collection store *)

(** The global [messages]: a JavaScript [Map], which iterates in the order
    its keys were first inserted. *)
Definition JSMap : Type := list (string * MessageArchive).

Definition Map_has (k : string) (m : JSMap) : bool :=
  existsb (fun kv => String.eqb (fst kv) k) m.

Fixpoint Map_set (k : string) (v : MessageArchive) (m : JSMap) : JSMap :=
  match m with
  | [] => [(k, v)]
  | (k', v') :: rest =>
      if String.eqb k' k then (k, v) :: rest else (k', v') :: Map_set k v rest
  end.

Definition Map_values (m : JSMap) : list MessageArchive := map snd m.

(** The binary64 number nearest to a natural number, ties to even: every
    integer up to [2^53] is a number, a larger one keeps its 53 leading
    bits. *)
Definition binary64 (n : Z) : Z :=
  if (n <? 2 ^ 53)%Z then n
  else
    let e := (Z.log2 n - 52)%Z in
    let q := Z.shiftr n e in
    let r := (n - Z.shiftl q e)%Z in
    let half := (2 ^ (e - 1))%Z in
    let q' := if (r <? half)%Z then q
              else if (half <? r)%Z then (q + 1)%Z
              else if Z.even q then q else (q + 1)%Z in
    Z.shiftl q' e.

(** [Number(s)] for a string of one to twenty decimal digits, which is
    what a snowflake (an unsigned 64-bit integer in decimal) is. *)
Definition Number (s : string) : Z := binary64 (JS.digitsValue s).

Definition isSnowflake (s : string) : bool :=
  (0 <? String.length s)%nat && (String.length s <=? 20)%nat
  && forallb JS.isDigit (list_ascii_of_string s).

(** [Array.prototype.sort] with a comparator reads only the sign of what
    the comparator returns, and is stable: with a comparator that is a
    difference of keys its result is the one the stable insertion sort
    below computes. *)
Fixpoint sort_insert {A} (cmp : A -> A -> Z) (x : A) (l : list A) : list A :=
  match l with
  | [] => [x]
  | y :: l' => if (cmp x y <=? 0)%Z then x :: y :: l' else y :: sort_insert cmp x l'
  end.

Fixpoint sort {A} (cmp : A -> A -> Z) (l : list A) : list A :=
  match l with
  | [] => []
  | x :: l' => sort_insert cmp x (sort cmp l')
  end.

(** The comparator of [saveMessageCollection]. *)
Definition bySnowflake (a b : MessageArchive) : Z :=
  (Number (snowflake a) - Number (snowflake b))%Z.

(** What [saveMessageCollection] writes to [metadata.json]: the array it
    serialises. *)
Definition saveMessageCollection (messages : JSMap) : list MessageArchive :=
  sort bySnowflake (Map_values messages).

(** ** History walker and content downloader *)

(** Everything outside the process: the configuration, the platform, the
    hosts the media are downloaded from, and the identifiers [uuidV4]
    draws. *)
Record World := mkWorld {
  outDir : string;
  downloadsDir : string;
  startingMessageId : string;
  client : Client;
  (* [client.channels.cache.get(channelId)?.isTextBased()] *)
  channel_isTextBased : bool;
  (* [channel.messages.fetch({ after, limit: 100 })], newest first *)
  messages_fetch_after : string -> Fetch (list Message);
  (* [fetch(url)] followed by [arrayBuffer()] *)
  fetch : string -> Fetch string;
  (* the n-th identifier [uuidV4()] returns *)
  uuidV4 : nat -> string
}.

Definition downloadPath (w : World) (file : string) : string :=
  outDir w +:+ "/" +:+ downloadsDir w +:+ "/" +:+ file.

Definition textFileName (archiveId : string) (stars : Z) : string :=
  archiveId +:+ "_" +:+ JS.Number_toString stars +:+ "-stars_textcontent.txt".

(** The locals of a running [processMessage]. *)
Record Task := mkTask {
  t_message : Message;
  t_archiveId : string;
  t_stars : Z;
  t_textContent : option string
}.

(** Where [processMessage] stands: before [saveTextContent], before
    [getAttachments], or inside the loop of [downloadAttachments] with
    [todo] still to download. *)
Inductive Phase :=
| SaveText
| Resolve
| Download (attachments todo : list ArchivedAttachment).

(** Where the process stands.  Control leaves the code only at an
    [await]; these are the points between them. *)
Inductive Control :=
| Starting                                  (* ['ready'] not yet handled *)
| AtFetch (messageId : string)              (* top of [while (true)] *)
| InPage (lastKey : JS.opt string) (queue : list Message)
| Processing (lastKey : JS.opt string) (queue : list Message)
             (task : Task) (phase : Phase)
| AtSave                                    (* after the loop *)
| Exited                                    (* [process.exit(0)] *)
| Crashed.                                  (* an unhandled rejection *)

Record State := mkState {
  control : Control;
  messages : JSMap;
  (* the files under [outDir/downloadsDir], by path *)
  disk : gmap string string;
  (* [outDir/metadata.json], when it exists *)
  metadata : option (list MessageArchive);
  (* how many identifiers [uuidV4] has returned *)
  drawn : nat;
  (* the URLs [downloadAttachments] has requested, latest first *)
  requested : list string;
  (* the message ids written to [console.error], latest first *)
  stderr : list string
}.

Definition withControl (c : Control) (s : State) : State :=
  {| control := c; messages := messages s; disk := disk s;
     metadata := metadata s; drawn := drawn s; requested := requested s;
     stderr := stderr s |}.

(** The record [processMessage] returns. *)
Definition recordOf (t : Task) (attachments : list ArchivedAttachment) : MessageArchive :=
  {| snowflake := id (t_message t);
     archiveId := t_archiveId t;
     ma_url := url (t_message t);
     stars := t_stars t;
     textContent := t_textContent t;
     ma_attachments := attachments |}.

(** [fetchedMessages.lastKey()] after the in-place [reverse()]. *)
Definition lastKey (page : list Message) : JS.opt string :=
  match last page with
  | Some m => JS.Value (id m)
  | None => JS.Undefined
  end.

(** The [for] loop that fills [messages] from a parsed [metadata.json]. *)
Definition loadCollection (collection : list MessageArchive) (messages : JSMap) : JSMap :=
  fold_left (fun m message => Map_set (snowflake message) message m)
            collection messages.

Section Walk.
Variable w : World.

(** One move of the ['ready'] handler, from one [await] to the next. *)
Inductive step : State -> State -> Prop :=
| step_load_resume s collection :
    control s = Starting ->
    metadata s = Some collection ->
    step s {| control := if channel_isTextBased w
                         then AtFetch (startingMessageId w) else Exited;
              messages := loadCollection collection (messages s);
              disk := disk s; metadata := metadata s; drawn := drawn s;
              requested := requested s; stderr := stderr s |}
| step_load_fresh s :
    control s = Starting ->
    metadata s = None ->
    step s {| control := if channel_isTextBased w
                         then AtFetch (startingMessageId w) else Exited;
              messages := messages s;
              disk := ∅; metadata := None; drawn := drawn s;
              requested := requested s; stderr := stderr s |}
| step_fetch_fail s messageId :
    control s = AtFetch messageId ->
    messages_fetch_after w messageId = FetchFailed ->
    step s (withControl Crashed s)
| step_fetch_empty s messageId :
    control s = AtFetch messageId ->
    messages_fetch_after w messageId = Fetched [] ->
    step s (withControl AtSave s)
| step_fetch_page s messageId fetchedMessages :
    control s = AtFetch messageId ->
    messages_fetch_after w messageId = Fetched fetchedMessages ->
    fetchedMessages <> [] ->
    step s (withControl (InPage (lastKey (rev fetchedMessages))
                                (rev fetchedMessages)) s)
| step_not_starboard s lk message queue :
    control s = InPage lk (message :: queue) ->
    isStarboardMessage message = false ->
    step s (withControl (InPage lk queue) s)
| step_skip s lk message queue :
    control s = InPage lk (message :: queue) ->
    isStarboardMessage message = true ->
    Map_has (id message) (messages s) = true ->
    step s (withControl (InPage lk queue) s)
| step_process s lk message queue :
    control s = InPage lk (message :: queue) ->
    isStarboardMessage message = true ->
    Map_has (id message) (messages s) = false ->
    step s {| control := Processing lk queue
                {| t_message := message;
                   t_archiveId := uuidV4 w (drawn s);
                   t_stars := getStars message;
                   t_textContent := getTextContent message |} SaveText;
              messages := messages s; disk := disk s;
              metadata := metadata s; drawn := S (drawn s);
              requested := requested s; stderr := stderr s |}
| step_page_end_break s lk :
    control s = InPage lk [] ->
    JS.truthy lk = false ->
    step s (withControl AtSave s)
| step_page_end_next s messageId :
    control s = InPage (JS.Value messageId) [] ->
    JS.truthy (JS.Value messageId) = true ->
    step s (withControl (AtFetch messageId) s)
| step_save_text s lk queue t :
    control s = Processing lk queue t SaveText ->
    step s {| control := Processing lk queue t Resolve;
              messages := messages s;
              disk := match t_textContent t with
                      | Some textContent =>
                          if JS.truthy (JS.Value textContent)
                          then <[downloadPath w (textFileName (t_archiveId t) (t_stars t))
                                 := textContent]> (disk s)
                          else disk s
                      | None => disk s
                      end;
              metadata := metadata s; drawn := drawn s;
              requested := requested s; stderr := stderr s |}
| step_resolve s lk queue t fuel attachments errs :
    control s = Processing lk queue t Resolve ->
    getAttachments (client w) fuel (t_message t) (t_archiveId t) (t_stars t)
      = Resolved (attachments, errs) ->
    step s {| control := Processing lk queue t (Download attachments attachments);
              messages := messages s; disk := disk s;
              metadata := metadata s; drawn := drawn s;
              requested := requested s;
              stderr := (rev errs ++ stderr s)%list |}
| step_resolve_throw s lk queue t fuel :
    control s = Processing lk queue t Resolve ->
    getAttachments (client w) fuel (t_message t) (t_archiveId t) (t_stars t)
      = Rejected ->
    step s (withControl Crashed s)
| step_download s lk queue t attachments attachment todo fileData :
    control s = Processing lk queue t (Download attachments (attachment :: todo)) ->
    fetch w (att_url attachment) = Fetched fileData ->
    step s {| control := Processing lk queue t (Download attachments todo);
              messages := messages s;
              disk := <[downloadPath w (localFile attachment) := fileData]> (disk s);
              metadata := metadata s; drawn := drawn s;
              requested := att_url attachment :: requested s;
              stderr := stderr s |}
| step_download_fail s lk queue t attachments attachment todo :
    control s = Processing lk queue t (Download attachments (attachment :: todo)) ->
    fetch w (att_url attachment) = FetchFailed ->
    step s {| control := Crashed;
              messages := messages s; disk := disk s;
              metadata := metadata s; drawn := drawn s;
              requested := att_url attachment :: requested s;
              stderr := stderr s |}
| step_add s lk queue t attachments :
    control s = Processing lk queue t (Download attachments []) ->
    step s {| control := InPage lk queue;
              messages := Map_set (id (t_message t)) (recordOf t attachments)
                            (messages s);
              disk := disk s; metadata := metadata s; drawn := drawn s;
              requested := requested s; stderr := stderr s |}
| step_save s :
    control s = AtSave ->
    step s {| control := Exited;
              messages := messages s; disk := disk s;
              metadata := Some (saveMessageCollection (messages s));
              drawn := drawn s; requested := requested s;
              stderr := stderr s |}.

Definition running (s : State) : Prop :=
  control s <> Exited /\ control s <> Crashed.

(** The [SIGINT] handler: it can run wherever the process is waiting,
    serialises the collection as it is, and exits. *)
Inductive interrupt : State -> State -> Prop :=
| interrupt_flush s :
    running s ->
    interrupt s {| control := Exited;
                   messages := messages s; disk := disk s;
                   metadata := Some (saveMessageCollection (messages s));
                   drawn := drawn s; requested := requested s;
                   stderr := stderr s |}.

(** The states a run passes through. *)
Definition reachable (s0 s : State) : Prop := rtc step s0 s.

End Walk.

(** The process as it starts: nothing in memory, and on disk what an
    earlier run may have left. *)
Definition start (files : gmap string string)
    (snapshot : option (list MessageArchive)) : State :=
  {| control := Starting; messages := []; disk := files;
     metadata := snapshot; drawn := 0; requested := []; stderr := [] |}.

(** ** Vocabulary of the statements, and sample data *)

(** A message with nothing but a body, an author and embeds. *)
Definition sampleMessage (body : string) (bot : bool) (es : list Embed) : Message :=
  {| id := "1"; content := body; author_bot := bot; url := "u";
     attachments := []; embeds := es; components := [] |}.

(** The vocabulary of the tiers.  [allButtonUrls] is every button target
    of the message, in component order. *)
Definition allButtonUrls (M : Message) : list string :=
  buttonUrls (fun _ => true) M.

Definition directAttachments (M : Message) : list (JS.opt string) :=
  map JS.Value (attachments M).

Definition embedImages (M : Message) : list (JS.opt string) :=
  List.filter JS.notUndefined (map image_url (embeds M)).

Definition embedVideos (M : Message) : list (JS.opt string) :=
  List.filter JS.notUndefined (map video_url (embeds M)).

Definition linkButtons (M : Message) : list (JS.opt string) :=
  map JS.Value
    (List.filter (fun u => negb (isPermalink u) && negb (isCdn u))
                 (allButtonUrls M)).

Definition hasCdnButton (M : Message) : bool :=
  existsb isCdn (allButtonUrls M).

(** A placeholder post that relays a clip: a content-delivery button and a
    permalink to the message that holds the media.  That message carries a
    file, a plain link button, and is a placeholder itself for a third. *)
Definition deepMessage : Message :=
  {| id := "30"; content := "original"; author_bot := false;
     url := "https://discord.com/channels/1/12/30";
     attachments := ["https://cdn.discordapp.com/attachments/12/30/deep.png"];
     embeds := []; components := [] |}.

Definition linkedMessage : Message :=
  {| id := "20"; content := "relay"; author_bot := false;
     url := "https://discord.com/channels/1/11/20";
     attachments := ["https://cdn.discordapp.com/attachments/11/20/clip.mp4"];
     embeds := [];
     components :=
       [ActionRow [Button (JS.Value "https://example.com/watch.html");
                   Button (JS.Value "https://cdn.discordapp.com/thumb.png");
                   Button (JS.Value "https://discord.com/channels/1/12/30")]] |}.


Definition relayClient : Client :=
  {| channels_fetch := fun channelId =>
       match channelId with
       | JS.Value "11" =>
           Fetched (JS.Value (TextBased (fun messageId =>
             match messageId with
             | JS.Value "20" => Fetched linkedMessage
             | _ => FetchFailed
             end)))
       | JS.Value "12" =>
           Fetched (JS.Value (TextBased (fun messageId =>
             match messageId with
             | JS.Value "30" => Fetched deepMessage
             | _ => FetchFailed
             end)))
       | JS.Value "13" => Fetched (JS.Value NotTextBased)
       | _ => FetchFailed
       end |}.


(** A relay whose permalink leads to a channel that holds no messages. *)
Definition forumRelayMessage : Message :=
  {| id := "50"; content := "⭐ **4** <#13>"; author_bot := true;
     url := "https://discord.com/channels/1/9/50";
     attachments := []; embeds := [];
     components :=
       [ActionRow [Button (JS.Value "https://cdn.discordapp.com/thumb.png");
                   Button (JS.Value "https://discord.com/channels/1/13")]] |}.

(** The URLs the loop keeps, and the extension it gives a kept URL. *)
Definition keptUrls (urls : list string) : list string :=
  List.filter (fun u => JS.truthy (rawExt u)) urls.

Definition extensionOf (u : string) : string :=
  stripLarge (JS.printed (rawExt u)).

Definition archived (archiveId : string) (stars : Z) (index : nat) (u : string)
    : ArchivedAttachment :=
  {| att_url := u;
     localFile := archiveId +:+ "_" +:+ JS.Number_toString stars +:+ "-stars_"
                    +:+ JS.Number_toString (Z.of_nat index) +:+ "."
                    +:+ extensionOf u |}.

Definition sampleRecord (sourceId archive : string) : MessageArchive :=
  {| snowflake := sourceId; archiveId := archive;
     ma_url := "https://discord.com/channels/1/9/" +:+ sourceId;
     stars := 3; textContent := None; ma_attachments := [] |}.

(** Two records whose identifiers are a millisecond's worth of messages
    apart, the later one inserted first. *)
Definition closeCollection : JSMap :=
  Map_set "1234567890123456788" (sampleRecord "1234567890123456788" "b")
    (Map_set "1234567890123456789" (sampleRecord "1234567890123456789" "a") []).

(** A channel with nothing new in it. *)
Definition quietWorld : World :=
  {| outDir := "./output"; downloadsDir := "downloads";
     startingMessageId := "1234567890123456000";
     client := relayClient;
     channel_isTextBased := true;
     messages_fetch_after := fun _ => Fetched [];
     fetch := fun _ => FetchFailed;
     uuidV4 := fun n => "uuid-" +:+ JS.Number_toString (Z.of_nat n) |}.

(** The index an earlier run left, the later record first. *)
Definition closeSnapshot : list MessageArchive :=
  [sampleRecord "1234567890123456789" "a"; sampleRecord "1234567890123456788" "b"].

Definition closeExit : State :=
  {| control := Exited; messages := closeCollection; disk := ∅;
     metadata := Some closeSnapshot; drawn := 0; requested := [];
     stderr := [] |}.

(** The file [outDir/downloadsDir/file] exists. *)
Definition onDisk (w : World) (d : gmap string string) (file : string) : Prop :=
  is_Some (d !! downloadPath w file).

Definition textSaved (w : World) (d : gmap string string)
    (archive : string) (count : Z) (text : option string) : Prop :=
  forall t, text = Some t -> onDisk w d (textFileName archive count).

Definition downloaded (w : World) (d : gmap string string) (req : list string)
    (a : ArchivedAttachment) : Prop :=
  onDisk w d (localFile a) /\ In (att_url a) req.

(** A record is completed when it is what [processMessage] returns for a
    starboard message and everything [processMessage] does before it
    returns has been done: the text is saved, the attachments are
    resolved, and each of them has been requested and written. *)
Definition completed (w : World) (d : gmap string string) (req : list string)
    (r : MessageArchive) : Prop :=
  exists message fuel errs,
    isStarboardMessage message = true
    /\ snowflake r = id message
    /\ ma_url r = url message
    /\ stars r = getStars message
    /\ textContent r = getTextContent message
    /\ getAttachments (client w) fuel message (archiveId r) (stars r)
       = Resolved (ma_attachments r, errs)
    /\ textSaved w d (archiveId r) (stars r) (textContent r)
    /\ Forall (downloaded w d req) (ma_attachments r).

(** How far a running [processMessage] has got. *)
Definition phaseInv (w : World) (d : gmap string string) (req : list string)
    (t : Task) (ph : Phase) : Prop :=
  match ph with
  | SaveText => True
  | Resolve => textSaved w d (t_archiveId t) (t_stars t) (t_textContent t)
  | Download attachments todo =>
      textSaved w d (t_archiveId t) (t_stars t) (t_textContent t)
      /\ (exists fuel errs,
            getAttachments (client w) fuel (t_message t) (t_archiveId t) (t_stars t)
            = Resolved (attachments, errs))
      /\ exists finished,
           attachments = (finished ++ todo)%list
           /\ Forall (downloaded w d req) finished
  end.

Definition controlInv (w : World) (snapshot : option (list MessageArchive))
    (s : State) : Prop :=
  match control s with
  | Starting => messages s = [] /\ metadata s = snapshot
  | Processing _ _ t ph =>
      Map_has (id (t_message t)) (messages s) = false
      /\ isStarboardMessage (t_message t) = true
      /\ t_stars t = getStars (t_message t)
      /\ t_textContent t = getTextContent (t_message t)
      /\ phaseInv w (disk s) (requested s) t ph
  | _ => True
  end.

(** The invariant of a run that started with [snapshot] on disk. *)
Definition walkInv (w : World) (snapshot : option (list MessageArchive))
    (s : State) : Prop :=
  controlInv w snapshot s
  /\ NoDup (map fst (messages s))
  /\ forall k r, In (k, r) (messages s) ->
       k = snowflake r
       /\ (In r (default [] snapshot) \/ completed w (disk s) (requested s) r).

(** [saveMessageCollection] runs when the loop ends and when [SIGINT]
    arrives. *)
Definition flush (w : World) (s s' : State) : Prop :=
  interrupt s s' \/ (control s = AtSave /\ step w s s').

(** A channel with two starboard posts after message 100. *)
Definition demoFirst : Message :=
  {| id := "101"; content := "⭐ **3** <#9>"; author_bot := true;
     url := "https://discord.com/channels/1/9/101";
     attachments := ["https://cdn.discordapp.com/attachments/9/101/a.png"];
     embeds := [mkEmbed (JS.Value "hello") JS.Undefined JS.Undefined];
     components := [] |}.

Definition demoSecond : Message :=
  {| id := "102"; content := "⭐ **8** <#9>"; author_bot := true;
     url := "https://discord.com/channels/1/9/102";
     attachments := ["https://cdn.discordapp.com/attachments/9/102/b.jpg"];
     embeds := []; components := [] |}.

Definition demoWorld : World :=
  {| outDir := "./output"; downloadsDir := "downloads";
     startingMessageId := "100";
     client := relayClient;
     channel_isTextBased := true;
     messages_fetch_after := fun messageId =>
       match messageId with
       | "100" => Fetched [demoSecond; demoFirst]
       | "102" => Fetched []
       | _ => FetchFailed
       end;
     fetch := fun u => Fetched ("bytes of " +:+ u);
     uuidV4 := fun n => "uuid-" +:+ JS.Number_toString (Z.of_nat n) |}.

Definition demoFirstRecord : MessageArchive :=
  {| snowflake := "101"; archiveId := "uuid-0";
     ma_url := "https://discord.com/channels/1/9/101";
     stars := 3; textContent := Some "hello";
     ma_attachments :=
       [{| att_url := "https://cdn.discordapp.com/attachments/9/101/a.png";
           localFile := "uuid-0_3-stars_0.png" |}] |}.

Definition demoFirstFiles : gmap string string :=
  <["./output/downloads/uuid-0_3-stars_0.png"
    := "bytes of https://cdn.discordapp.com/attachments/9/101/a.png"]>
    (<["./output/downloads/uuid-0_3-stars_textcontent.txt" := "hello"]> ∅).

(** The first message is archived and the walk stands before the second. *)
Definition demoBetween : State :=
  {| control := InPage (JS.Value "102") [demoSecond];
     messages := [("101", demoFirstRecord)];
     disk := demoFirstFiles; metadata := None; drawn := 1;
     requested := ["https://cdn.discordapp.com/attachments/9/101/a.png"];
     stderr := [] |}.

(** The second message is being processed: its identifier is drawn, its
    files are not written yet. *)
Definition demoMidway : State :=
  {| control := Processing (JS.Value "102") []
                  {| t_message := demoSecond; t_archiveId := "uuid-1";
                     t_stars := 8; t_textContent := None |} Resolve;
     messages := [("101", demoFirstRecord)];
     disk := demoFirstFiles; metadata := None; drawn := 2;
     requested := ["https://cdn.discordapp.com/attachments/9/101/a.png"];
     stderr := [] |}.

Definition demoInterrupted : State :=
  {| control := Exited;
     messages := [("101", demoFirstRecord)];
     disk := demoFirstFiles;
     metadata := Some [demoFirstRecord]; drawn := 2;
     requested := ["https://cdn.discordapp.com/attachments/9/101/a.png"];
     stderr := [] |}.

Definition demoSecondRecord : MessageArchive :=
  {| snowflake := "102"; archiveId := "uuid-1";
     ma_url := "https://discord.com/channels/1/9/102";
     stars := 8; textContent := None;
     ma_attachments :=
       [{| att_url := "https://cdn.discordapp.com/attachments/9/102/b.jpg";
           localFile := "uuid-1_8-stars_0.jpg" |}] |}.

(** The run left alone: both messages archived, the index written. *)
Definition demoDone : State :=
  {| control := Exited;
     messages := [("101", demoFirstRecord); ("102", demoSecondRecord)];
     disk := <["./output/downloads/uuid-1_8-stars_0.jpg"
              := "bytes of https://cdn.discordapp.com/attachments/9/102/b.jpg"]>
               demoFirstFiles;
     metadata := Some [demoFirstRecord; demoSecondRecord]; drawn := 2;
     requested := ["https://cdn.discordapp.com/attachments/9/102/b.jpg";
                   "https://cdn.discordapp.com/attachments/9/101/a.png"];
     stderr := [] |}.

(** The second page of the walk brings the first message again. *)
Definition demoAgain : State :=
  {| control := InPage (JS.Value "101") [demoFirst; demoSecond];
     messages := [("101", demoFirstRecord)];
     disk := demoFirstFiles; metadata := None; drawn := 1;
     requested := ["https://cdn.discordapp.com/attachments/9/101/a.png"];
     stderr := [] |}.

(** ** Vocabulary of the further properties *)

(** A relay whose permalink leads back to the relay itself. *)
Definition loopMessage : Message :=
  {| id := "60"; content := "⭐ **2** <#21>"; author_bot := true;
     url := "https://discord.com/channels/1/21/60";
     attachments := []; embeds := [];
     components :=
       [ActionRow [Button (JS.Value "https://cdn.discordapp.com/thumb.png");
                   Button (JS.Value "https://discord.com/channels/1/21/60")]] |}.

Definition loopClient : Client :=
  {| channels_fetch := fun channelId =>
       match channelId with
       | JS.Value "21" =>
           Fetched (JS.Value (TextBased (fun messageId =>
             match messageId with
             | JS.Value "60" => Fetched loopMessage
             | _ => FetchFailed
             end)))
       | _ => FetchFailed
       end |}.









(** The skip test of the walk loop. *)
Definition skipped (s : State) (message : Message) : Prop :=
  isStarboardMessage message = false \/ Map_has (id message) (messages s) = true.

(** What a run that started from [snapshot] has in memory after loading. *)
Definition loaded (snapshot : option (list MessageArchive)) : JSMap :=
  loadCollection (default [] snapshot) [].

(** The end of a run that found no message after the starting point. *)
Definition quietExit (files : gmap string string)
    (snapshot : option (list MessageArchive)) : State :=
  {| control := Exited;
     messages := loaded snapshot;
     disk := match snapshot with Some _ => files | None => ∅ end;
     metadata := Some (saveMessageCollection (loaded snapshot));
     drawn := 0; requested := []; stderr := [] |}.

(** A second run over the two-message channel, both messages archived. *)
Definition demoRescan : State :=
  {| control := AtFetch "100";
     messages := [("101", demoFirstRecord); ("102", demoSecondRecord)];
     disk := ∅; metadata := Some [demoFirstRecord; demoSecondRecord];
     drawn := 0; requested := []; stderr := [] |}.

(** A configuration whose channel id names no text channel. *)
Definition strayWorld : World :=
  {| outDir := "./output"; downloadsDir := "downloads";
     startingMessageId := "100";
     client := relayClient;
     channel_isTextBased := false;
     messages_fetch_after := messages_fetch_after demoWorld;
     fetch := fetch demoWorld;
     uuidV4 := uuidV4 demoWorld |}.

Definition strayExit : State :=
  {| control := Exited; messages := []; disk := ∅; metadata := None;
     drawn := 0; requested := []; stderr := [] |}.

(** The identifiers of the records a run has added: the first [n] that
    [uuidV4] returned, in the order it returned them, after those of the
    records it loaded. *)
Definition identifiersUsed (w : World) (snapshot : option (list MessageArchive))
    (n : nat) : list string :=
  (map archiveId (Map_values (loaded snapshot)) ++ map (uuidV4 w) (seq 0 n))%list.

(** The identifiers of the records in memory. *)
Definition identifiersOf (s : State) : list string :=
  map archiveId (Map_values (messages s)).

(** How the identifiers in memory stand to the ones drawn, at each point
    of the run. *)
Definition drawnInv (w : World) (snapshot : option (list MessageArchive))
    (s : State) : Prop :=
  match control s with
  | Starting => messages s = [] /\ drawn s = 0
  | Processing _ _ t _ =>
      exists n, drawn s = S n /\ t_archiveId t = uuidV4 w n
                /\ identifiersOf s = identifiersUsed w snapshot n
  | Exited | Crashed =>
      exists n, identifiersOf s = identifiersUsed w snapshot n
                /\ (drawn s = n \/ drawn s = S n)
  | _ => identifiersOf s = identifiersUsed w snapshot (drawn s)
  end.

(** The value of a decimal numeral read digit by digit from [acc]. *)
Fixpoint uintFold (d : Decimal.uint) (acc : Z) : Z :=
  match d with
  | Decimal.Nil => acc
  | Decimal.D0 l => uintFold l (10 * acc + 0)
  | Decimal.D1 l => uintFold l (10 * acc + 1)
  | Decimal.D2 l => uintFold l (10 * acc + 2)
  | Decimal.D3 l => uintFold l (10 * acc + 3)
  | Decimal.D4 l => uintFold l (10 * acc + 4)
  | Decimal.D5 l => uintFold l (10 * acc + 5)
  | Decimal.D6 l => uintFold l (10 * acc + 6)
  | Decimal.D7 l => uintFold l (10 * acc + 7)
  | Decimal.D8 l => uintFold l (10 * acc + 8)
  | Decimal.D9 l => uintFold l (10 * acc + 9)
  end%Z.

(** * Properties *)

(** ** String primitives *)

Lemma startsWith_spec s p :
  JS.startsWith s p = true <-> exists rest, s = p +:+ rest.
Proof.
  revert s. induction p as [|a p IH]; intros s; simpl.
  - split; [intros _; by exists s | done].
  - destruct s as [|b s]; simpl.
    + split; [done | intros [rest Hrest]; discriminate].
    + rewrite andb_true_iff, Ascii.eqb_eq, IH. split.
      * intros [-> [rest ->]]. by exists rest.
      * intros [rest Hrest]. injection Hrest as -> ->. eauto.
Qed.

Lemma append_empty_inv s t : s +:+ t = EmptyString -> s = EmptyString /\ t = EmptyString.
Proof. destruct s; simpl; [done | discriminate]. Qed.

Lemma length_zero_empty s : (0 <? String.length s)%nat = false <-> s = EmptyString.
Proof.
  destruct s; simpl; [done |]. split; [|discriminate].
  intros H. apply Nat.ltb_ge in H. lia.
Qed.

Lemma split_nonempty sep s : JS.split sep s <> [].
Proof.
  destruct s as [|c s]; simpl; [done |].
  destruct (Ascii.eqb c sep); [done |]. by destruct (JS.split sep s).
Qed.

Lemma join_cons_cons sep x y rest :
  JS.join sep (x :: y :: rest) = JS.printed x +:+ sep +:+ JS.join sep (y :: rest).
Proof. reflexivity. Qed.

(** [split] cuts at every separator and nowhere else: joining the pieces
    with the separator gives the string back, and no piece holds one. *)
Lemma join_split sep s :
  JS.join (String sep EmptyString) (map JS.Value (JS.split sep s)) = s.
Proof.
  induction s as [|c s IH]; [done |]. cbn [JS.split].
  destruct (Ascii.eqb_spec c sep) as [-> | Hne].
  - pose proof (split_nonempty sep s) as Hs.
    destruct (JS.split sep s) as [|h t]; [done |].
    change (map JS.Value (EmptyString :: h :: t))
      with (JS.Value EmptyString :: map JS.Value (h :: t)).
    cbn [map] in *. rewrite join_cons_cons, IH. done.
  - destruct (JS.split sep s) as [|h [|h' t]].
    + by rewrite <- IH.
    + by rewrite <- IH.
    + cbn [map] in *. rewrite join_cons_cons in *. by rewrite <- IH.
Qed.

Lemma split_no_separator sep s :
  Forall (fun piece => ~ In sep (list_ascii_of_string piece)) (JS.split sep s).
Proof.
  induction s as [|c s IH]; simpl.
  - constructor; [intros [] | constructor].
  - destruct (Ascii.eqb_spec c sep) as [-> | Hne].
    + constructor; [intros [] | exact IH].
    + destruct (JS.split sep s) as [|h t].
      * constructor; [| constructor]. simpl. intros [? | []]. done.
      * apply Forall_cons in IH as [Hh Ht]. constructor; [| done].
        simpl. intros [? | ?]; [done | by apply Hh].
Qed.

(** The head of a split is the text before the first separator. *)
Lemma split_head sep s :
  exists h, JS.split sep s !! 0 = Some h
            /\ ~ In sep (list_ascii_of_string h)
            /\ (s = h \/ exists rest, s = h +:+ String sep rest).
Proof.
  pose proof (split_no_separator sep s) as Hno.
  pose proof (join_split sep s) as Hjoin.
  destruct (JS.split sep s) as [|h [|h' t]] eqn:Hs.
  - by apply split_nonempty in Hs.
  - exists h. apply Forall_cons in Hno as [Hh _]. repeat split; [done |]. by left.
  - exists h. apply Forall_cons in Hno as [Hh _]. repeat split; [done |].
    right. cbn [map] in Hjoin. rewrite join_cons_cons in Hjoin.
    eexists. symmetry. exact Hjoin.
Qed.

(** The last piece of a split is the text after the last separator. *)
Lemma split_last sep s :
  exists seg, JS.pop (JS.split sep s) = Some seg
              /\ ~ In sep (list_ascii_of_string seg)
              /\ (s = seg \/ exists before, s = before +:+ String sep seg).
Proof.
  induction s as [|c s (seg & Hpop & Hno & Hs)]; simpl.
  - exists EmptyString. repeat split; [intros [] | by left].
  - unfold JS.pop in *. destruct (Ascii.eqb_spec c sep) as [-> | Hne].
    + pose proof (split_nonempty sep s) as Hne.
      destruct (JS.split sep s) as [|h t] eqn:Hsplit; [done |].
      exists seg. change (last (EmptyString :: h :: t)) with (last (h :: t)).
      repeat split; [done | done |]. right.
      destruct Hs as [-> | [before ->]].
      * by exists EmptyString.
      * by exists (String sep before).
    + destruct (JS.split sep s) as [|h [|h' t]] eqn:Hsplit.
      * discriminate.
      * simpl in Hpop. injection Hpop as <-.
        pose proof (join_split sep s) as Hj. rewrite Hsplit in Hj.
        simpl in Hj. subst s.
        exists (String c h). split; [done |]. split; [| by left].
        simpl. intros [? | ?]; [done | by apply Hno].
      * exists seg. change (last (String c h :: h' :: t)) with (last (h' :: t)).
        change (last (h :: h' :: t)) with (last (h' :: t)) in Hpop.
        repeat split; [done | done |]. right.
        destruct Hs as [-> | [before ->]].
        -- exfalso. pose proof (join_split sep seg) as Hj. rewrite Hsplit in Hj.
           cbn [map] in Hj. rewrite join_cons_cons in Hj.
           apply Hno. rewrite <- Hj. clear. cbn [JS.printed].
           induction h as [|a h IH]; simpl; [by left | by right].
        -- by exists (String c before).
Qed.

Lemma endsWith_spec s p :
  JS.endsWith s p = true <-> exists before, s = before +:+ p.
Proof.
  induction s as [|c s IH]; cbn [JS.endsWith].
  - rewrite orb_false_r, String.eqb_eq. split.
    + intros <-. by exists EmptyString.
    + intros [before H]. symmetry in H. by apply append_empty_inv in H as [_ ->].
  - rewrite orb_true_iff, String.eqb_eq, IH. split.
    + intros [<- | [before ->]]; [by exists EmptyString | by exists (String c before)].
    + intros [[|c' before] H]; simpl in H; [by left |].
      injection H as <- ->. right. by exists before.
Qed.

Lemma length_append s t :
  String.length (s +:+ t) = (String.length s + String.length t)%nat.
Proof. induction s as [|c s IH]; simpl; [done | by rewrite IH]. Qed.

Lemma substring_prefix s t : substring 0 (String.length s) (s +:+ t) = s.
Proof.
  induction s as [|c s IH]; simpl; [by destruct t | by rewrite IH].
Qed.

Lemma slice_to_minus_append s t :
  JS.slice_to_minus (s +:+ t) (String.length t) = s.
Proof.
  unfold JS.slice_to_minus. rewrite length_append.
  replace (String.length s + String.length t - String.length t)%nat
    with (String.length s) by lia.
  apply substring_prefix.
Qed.

(** [stripLarge] cuts one trailing [':large'] and nothing else. *)
Lemma stripLarge_spec ext :
  (exists stem, ext = stem +:+ ":large" /\ stripLarge ext = stem)
  \/ ((forall stem, ext <> stem +:+ ":large") /\ stripLarge ext = ext).
Proof.
  unfold stripLarge. destruct (JS.endsWith ext ":large") eqn:H.
  - left. apply endsWith_spec in H as [stem ->]. exists stem. split; [done |].
    apply (slice_to_minus_append stem ":large").
  - right. split; [| done]. intros stem ->.
    assert (JS.endsWith (stem +:+ ":large") ":large" = true) as Ht
      by (apply endsWith_spec; by exists stem).
    congruence.
Qed.

(** The extension [getAttachments] reads off a URL: the text after the
    last ['.'] of the whole URL (the whole URL when it has none), up to
    the first ['?'] in it. *)
Lemma rawExt_spec u :
  exists segment ext,
    rawExt u = JS.Value ext
    /\ (u = segment \/ exists before, u = before +:+ String "." segment)
    /\ ~ In "."%char (list_ascii_of_string segment)
    /\ (segment = ext \/ exists query, segment = ext +:+ String "?" query)
    /\ ~ In "?"%char (list_ascii_of_string ext).
Proof.
  destruct (split_last "." u) as (segment & Hpop & Hno & Hu).
  destruct (split_head "?" segment) as (ext & Hhead & Hnoq & Hseg).
  exists segment, ext. unfold rawExt, JS.index. rewrite Hpop, Hhead. done.
Qed.

(** ** Message classifier *)

Example getStars_seven :
  getStars (sampleMessage "⭐ **7** <#123>" true []) = 7%Z.
Proof. reflexivity. Qed.

Example getStars_none :
  getStars (sampleMessage "hello" true []) = 0%Z.
Proof. reflexivity. Qed.

Example getStars_inner :
  getStars (sampleMessage "x ⭐ **12** y" true []) = 12%Z.
Proof. reflexivity. Qed.

Example isStarboardMessage_human :
  isStarboardMessage (sampleMessage "⭐ **7** <#123>" false []) = false.
Proof. reflexivity. Qed.

(** A body that begins with the whole star-count pattern begins with the
    literal the classifier looks for. *)
Lemma starCountRegex_at_startsWith s :
  is_Some (starCountRegex_at s) -> JS.startsWith s starPrefix = true.
Proof.
  unfold starCountRegex_at. destruct (JS.startsWith s starPrefix); [done |].
  intros [? ?]; discriminate.
Qed.

Lemma isStarboardMessage_of_pattern M :
  is_Some (starCountRegex_at (content M)) -> author_bot M = true ->
  isStarboardMessage M = true.
Proof.
  intros Hpat Hbot. unfold isStarboardMessage.
  by rewrite (starCountRegex_at_startsWith _ Hpat), Hbot.
Qed.

(** C1, as stated, fails: a body that opens the bold markup after the star
    without an integer in it is archivable when a bot wrote it. *)
Lemma isStarboardMessage_needs_no_integer :
  ~ (forall M : Message,
       isStarboardMessage M = true <->
       is_Some (starCountRegex_at (content M)) /\ author_bot M = true).
Proof.
  intros H.
  destruct (H (sampleMessage "⭐ **many** stars" true [])) as [Hto _].
  destruct (Hto eq_refl) as [[ds Hds] _]. discriminate Hds.
Qed.

(** C1 (amended): [isStarboardMessage] holds exactly of the messages whose
    body begins with the star glyph, a space and two asterisks, and whose
    author is a bot; what follows the two asterisks is not looked at. *)
Theorem isStarboardMessage_iff (M : Message) :
  isStarboardMessage M = true <->
  (exists rest, content M = starPrefix +:+ rest) /\ author_bot M = true.
Proof.
  unfold isStarboardMessage.
  by rewrite andb_true_iff, startsWith_spec.
Qed.

Lemma join_two_nonempty sep x y rest :
  sep <> EmptyString -> JS.join sep (x :: y :: rest) <> EmptyString.
Proof.
  intros Hsep H. cbn [JS.join] in H.
  apply append_empty_inv in H as [_ H].
  apply append_empty_inv in H as [H _]. done.
Qed.

Lemma join_empty_iff sep xs :
  sep <> EmptyString ->
  JS.join sep xs = EmptyString <->
  xs = [] \/ exists x, xs = [x] /\ JS.printed x = EmptyString.
Proof.
  intros Hsep. destruct xs as [|x [|y rest]].
  - simpl. split; [by left | done].
  - simpl. split.
    + intros H. right. by exists x.
    + intros [H | [x' [[= <-] H]]]; [discriminate | done].
  - split.
    + intros H. by apply join_two_nonempty in H.
    + intros [H | [x' [H _]]]; discriminate.
Qed.

(** C7, as stated, fails: two embeds without a description join to the
    separator alone, which is not empty. *)
Lemma getTextContent_two_blank_embeds :
  let M := sampleMessage "⭐ **3**" true
             [mkEmbed JS.Null JS.Undefined JS.Undefined;
              mkEmbed JS.Null JS.Undefined JS.Undefined] in
  Forall (fun e => description e = JS.Null) (embeds M)
  /\ getTextContent M = Some (LF +:+ LF).
Proof. split; [repeat constructor | reflexivity]. Qed.

(** C7 (amended): [getTextContent] is the embed descriptions joined by a
    blank line (a missing description counts as the empty string) when
    that text is not empty, and absent when it is empty; it is empty
    exactly when the message has no embed, or one embed whose description
    is missing or empty. *)
Theorem getTextContent_spec (M : Message) :
  let joined := JS.join (LF +:+ LF) (map description (embeds M)) in
  getTextContent M = (if String.eqb joined EmptyString then None else Some joined)
  /\ (joined = EmptyString <->
      embeds M = [] \/
      exists e, embeds M = [e] /\ JS.printed (description e) = EmptyString).
Proof.
  intros joined. split.
  - unfold getTextContent. fold joined.
    destruct (String.eqb_spec joined EmptyString) as [-> | Hne]; [done |].
    destruct joined; [done | reflexivity].
  - unfold joined. rewrite join_empty_iff by done.
    destruct (embeds M) as [|e [|e' es]]; simpl.
    + split; intros _; by left.
    + split.
      * intros [H | [x [[= <-] Hx]]]; [discriminate |]. right. by exists e.
      * intros [H | [x [[= <-] Hx]]]; [discriminate |]. right. by exists (description e).
    + split.
      * intros [H | [x [H _]]]; discriminate.
      * intros [H | [x [H _]]]; discriminate.
Qed.

(** ** Attachment resolver *)

Lemma row_urls_filter keep cs :
  omap definedUrl
    (List.filter JS.notNull (map Component_url (List.filter (buttonPasses keep) cs)))
  = List.filter keep
      (omap definedUrl
        (List.filter JS.notNull
          (map Component_url (List.filter (buttonPasses (fun _ => true)) cs)))).
Proof.
  induction cs as [|c cs IH]; [done |].
  destruct c as [[| |u]|]; simpl; try exact IH.
  destruct (keep u); simpl; [f_equal |]; exact IH.
Qed.

Lemma buttonUrls_filter keep M :
  buttonUrls keep M = List.filter keep (allButtonUrls M).
Proof.
  unfold allButtonUrls, buttonUrls.
  induction (components M) as [|row rows IH]; [done |].
  cbn [flat_map]. rewrite !List.filter_app, !omap_app, List.filter_app, IH.
  f_equal. destruct row as [cs|]; [apply row_urls_filter | done].
Qed.

Lemma startsWith_comparable s p q :
  JS.startsWith s p = true -> JS.startsWith s q = true ->
  JS.startsWith p q = true \/ JS.startsWith q p = true.
Proof.
  revert s q. induction p as [|a p IH]; intros s q Hp Hq.
  - right. by destruct q.
  - destruct q as [|b q]; [by left |].
    destruct s as [|c s]; [discriminate |]. simpl in *.
    apply andb_true_iff in Hp as [Ha Hp]. apply andb_true_iff in Hq as [Hb Hq].
    apply Ascii.eqb_eq in Ha, Hb. subst.
    rewrite Ascii.eqb_refl. simpl. eauto.
Qed.

(** A content-delivery URL is not a message permalink. *)
Lemma isCdn_not_permalink u : isCdn u = true -> isPermalink u = false.
Proof.
  unfold isCdn, isPermalink. intros H.
  destruct (JS.startsWith u permalinkPrefix) eqn:Hp; [| done].
  apply orb_true_iff in H as [H | H];
    destruct (startsWith_comparable _ _ _ H Hp) as [C | C];
    vm_compute in C; discriminate.
Qed.

Lemma filter_length_pos {A} (f : A -> bool) l :
  (0 <? length (List.filter f l))%nat = existsb f l.
Proof.
  induction l as [|x l IH]; [done |]. simpl.
  destruct (f x); simpl; [done | exact IH].
Qed.

Lemma filter_filter' {A} (f g : A -> bool) l :
  List.filter f (List.filter g l) = List.filter (fun x => g x && f x) l.
Proof.
  induction l as [|x l IH]; [done |]. simpl.
  destruct (g x); simpl; [destruct (f x) |]; by rewrite IH.
Qed.

Lemma filter_ext_in' {A} (f g : A -> bool) l :
  (forall x, In x l -> f x = g x) -> List.filter f l = List.filter g l.
Proof.
  induction l as [|x l IH]; [done |]. intros H. simpl.
  rewrite (H x) by (by left). rewrite IH; [done |].
  intros y Hy. apply H. by right.
Qed.

Lemma existsb_false_forall {A} (f : A -> bool) l :
  existsb f l = false -> forall x, In x l -> f x = false.
Proof.
  induction l as [|y l IH]; [done |]. simpl. intros H x [-> | Hx].
  - by apply orb_false_iff in H as [? _].
  - apply orb_false_iff in H as [_ ?]. by apply IH.
Qed.

Lemma existsb_filter {A} (f g : A -> bool) l :
  (forall x, f x = true -> g x = true) ->
  existsb f (List.filter g l) = existsb f l.
Proof.
  intros Hfg. induction l as [|x l IH]; [done |]. simpl.
  destruct (g x) eqn:Hg; simpl; rewrite IH; [done |].
  destruct (f x) eqn:Hf; [| done]. rewrite (Hfg _ Hf) in Hg. discriminate.
Qed.

Lemma existsb_nil_length {A} (f : A -> bool) l :
  (0 <? length l)%nat = false -> existsb f l = false.
Proof. by destruct l. Qed.

(** One level of [getAttachmentUrls], with the tiers named. *)
Lemma getAttachmentUrls_unfold (client : Client) (fuel : nat) (M : Message) :
  getAttachmentUrls client (S fuel) M =
    '(advancedAttachments, errs) ←
       (if hasCdnButton M then getAdvancedAttachments client fuel M
        else Some ([], []));
    Some ((directAttachments M ++ embedImages M ++ embedVideos M
             ++ linkButtons M ++ advancedAttachments)%list, errs).
Proof.
  cbn [getAttachmentUrls]. unfold getAttachmentUrls_with.
  fold (getAdvancedAttachments client fuel M).
  unfold hasCdnButton, linkButtons, directAttachments, embedImages, embedVideos.
  rewrite (buttonUrls_filter (fun u => negb (isPermalink u))).
  set (all := allButtonUrls M).
  set (buttonLinks := List.filter (fun u => negb (isPermalink u)) all).
  assert (Hcdn : existsb isCdn buttonLinks = existsb isCdn all).
  { apply existsb_filter. intros u Hu. by rewrite (isCdn_not_permalink u Hu). }
  assert (Hkeep : List.filter (fun u => negb (isCdn u)) buttonLinks
                  = List.filter (fun u => negb (isPermalink u) && negb (isCdn u)) all).
  { unfold buttonLinks. apply filter_filter'. }
  assert (Hnone : existsb isCdn buttonLinks = false ->
                  List.filter (fun u => negb (isCdn u)) buttonLinks = buttonLinks).
  { intros Hex. rewrite <- (List.filter_true buttonLinks) at 2.
    apply filter_ext_in'. intros u Hu.
    by rewrite (existsb_false_forall _ _ Hex u Hu). }
  rewrite filter_length_pos, <- Hcdn, <- Hkeep.
  clearbody buttonLinks. clear Hcdn Hkeep.
  destruct (0 <? length buttonLinks)%nat eqn:Hlen.
  - destruct (existsb isCdn buttonLinks) eqn:Hex.
    + destruct (getAdvancedAttachments client fuel M) as [[adv errs]|]; done.
    + simpl. by rewrite (Hnone eq_refl).
  - rewrite (existsb_nil_length isCdn _ Hlen). simpl.
    by destruct buttonLinks.
Qed.


(** *** The second tier *)


Lemma promiseAll_fetched {A} (xs : list A) :
  promiseAll (map Fetched xs) = Fetched xs.
Proof. induction xs as [|x xs IH]; [done |]. simpl. by rewrite IH. Qed.










(** More fuel never changes a resolution that has settled. *)
Lemma getAttachmentUrls_fuel_mono (c : Client) fuel fuel' M r :
  fuel <= fuel' ->
  getAttachmentUrls c fuel M = Some r -> getAttachmentUrls c fuel' M = Some r.
Proof.
  revert fuel' M r. induction fuel as [|fuel IH]; intros fuel' M r Hle H; [done |].
  destruct fuel' as [|fuel']; [lia |].
  rewrite getAttachmentUrls_unfold in *.
  destruct (hasCdnButton M); [| done].
  destruct (getAdvancedAttachments c fuel M) as [[adv errs]|] eqn:Hadv; [| done].
  assert (Hadv' : getAdvancedAttachments c fuel' M = Some (adv, errs)); [| by rewrite Hadv'].
  unfold getAdvancedAttachments, getAdvancedAttachments_with in *.
  destruct (promiseAll _) as [ms|]; [| done].
  destruct (mapM (resolveLinked (getAttachmentUrls c fuel)) ms) as [results|] eqn:Hres;
    [| done].
  assert (Hres' : mapM (resolveLinked (getAttachmentUrls c fuel')) ms = Some results);
    [| by rewrite Hres'].
  apply mapM_Some. apply mapM_Some in Hres.
  eapply Forall2_impl; [exact Hres |].
  intros [| |m] res Hm; simpl in *; try done.
  destruct (getAttachmentUrls c fuel m) as [[urls e]|] eqn:Hu; [| done].
  by rewrite (IH fuel' m (urls, e) ltac:(lia) Hu).
Qed.



(** C10 fails on the code: the entry of a permalink whose channel is not
    text-based is [undefined], the [!== null] filter lets it through,
    [flat()] keeps it, and [getAttachments] throws on it. *)
Theorem second_tier_keeps_undefined :
  getAdvancedAttachments relayClient 0 forumRelayMessage
    = Some ([JS.Undefined], [])
  /\ (forall fuel, getAttachmentUrls relayClient (S fuel) forumRelayMessage
                   = Some ([JS.Undefined], []))
  /\ (forall fuel archiveId stars,
        getAttachments relayClient (S fuel) forumRelayMessage archiveId stars
        = Rejected).
Proof.
  assert (H : forall fuel, getAttachmentUrls relayClient (S fuel) forumRelayMessage
                           = Some ([JS.Undefined], [])).
  { intros fuel. apply (getAttachmentUrls_fuel_mono relayClient 1); [lia | reflexivity]. }
  split; [reflexivity |]. split; [exact H |].
  intros fuel archiveId stars. unfold getAttachments. by rewrite H.
Qed.

(** ** Archive record builder *)

Example getAttachments_loop_sample :
  getAttachments_loop
    [JS.Value "https://cdn.discordapp.com/attachments/1/2/cat.png?ex=66&is=77";
     JS.Value "https://example.com/folder/";
     JS.Value "https://example.com/noext.";
     JS.Value "https://pbs.twimg.com/media/Fx3.jpg:large"]
    "6f1c" 12 0
  = Some [{| att_url := "https://cdn.discordapp.com/attachments/1/2/cat.png?ex=66&is=77";
             localFile := "6f1c_12-stars_0.png" |};
          {| att_url := "https://example.com/folder/";
             localFile := "6f1c_12-stars_1.com/folder/" |};
          {| att_url := "https://pbs.twimg.com/media/Fx3.jpg:large";
             localFile := "6f1c_12-stars_2.jpg" |}].
Proof. reflexivity. Qed.

Lemma getAttachments_loop_from archiveId stars urls n :
  getAttachments_loop (map JS.Value urls) archiveId stars n
  = Some (imap (fun i u => archived archiveId stars (n + i) u) (keptUrls urls)).
Proof.
  revert n. induction urls as [|u urls IH]; intros n; [done |].
  cbn [map getAttachments_loop keptUrls List.filter].
  fold (keptUrls urls).
  destruct (JS.truthy (rawExt u)); cbn [negb].
  - rewrite IH. cbn [imap]. simpl. f_equal. f_equal.
    + unfold archived, fileName, extensionOf. by rewrite Nat.add_0_r.
    + apply imap_ext. intros i x _. simpl. f_equal. lia.
  - apply IH.
Qed.

(** C4, as stated, fails: the emptiness test comes before the [':large']
    suffix is cut, so a URL whose extension is nothing but that suffix is
    kept, with a file name that ends in a dot. *)
Lemma getAttachments_keeps_bare_large_suffix :
  ~ (forall (urls : list string) archiveId stars attachments u,
       getAttachments_loop (map JS.Value urls) archiveId stars 0 = Some attachments ->
       In u urls -> extensionOf u = EmptyString ->
       ~ In u (map att_url attachments)).
Proof.
  intros H.
  apply (H ["https://pbs.twimg.com/media/Fx3.:large"] "6f1c" 12%Z
           [{| att_url := "https://pbs.twimg.com/media/Fx3.:large";
               localFile := "6f1c_12-stars_0." |}]
           "https://pbs.twimg.com/media/Fx3.:large").
  - reflexivity.
  - by left.
  - reflexivity.
  - by left.
Qed.

(** C4 (amended): of a list of URLs, [getAttachments] drops those for
    which the text after the last ['.'], up to the first ['?'], is empty
    (the test is made before a trailing [':large'] is cut), and gives the
    others, in order, the file name
    [{archiveId}_{stars}-stars_{index}.{ext}], where [index] counts the
    kept URLs from 0 and [ext] is that text without a trailing
    [':large']. *)
Theorem getAttachments_loop_spec (urls : list string) (archiveId : string) (stars : Z) :
  getAttachments_loop (map JS.Value urls) archiveId stars 0
  = Some (imap (archived archiveId stars) (keptUrls urls)).
Proof. apply getAttachments_loop_from. Qed.

(** What the record builder returns for a message whose resolved list
    holds only strings. *)
Lemma getAttachments_resolved (c : Client) fuel M archiveId stars urls errs :
  getAttachmentUrls c fuel M = Some (map JS.Value urls, errs) ->
  getAttachments c fuel M archiveId stars
  = Resolved (imap (archived archiveId stars) (keptUrls urls), errs).
Proof.
  intros H. unfold getAttachments. by rewrite H, getAttachments_loop_from.
Qed.

(** A dropped URL leaves no entry, and the indices of the kept ones are
    their positions in the result. *)
Lemma getAttachments_loop_index urls archiveId stars i a :
  imap (archived archiveId stars) (keptUrls urls) !! i = Some a ->
  exists u, keptUrls urls !! i = Some u /\ a = archived archiveId stars i u
            /\ In u urls /\ JS.truthy (rawExt u) = true.
Proof.
  rewrite list_lookup_imap. intros H.
  destruct (keptUrls urls !! i) as [u|] eqn:Hu; [| done].
  simpl in H. injection H as <-. exists u. split; [done |]. split; [done |].
  apply list_elem_of_lookup_2, list_elem_of_In in Hu.
  by apply List.filter_In in Hu.
Qed.

(** ** Collection store *)

Example binary64_above_2_53 :
  binary64 9007199254740993 = 9007199254740992%Z
  /\ binary64 9007199254740995 = 9007199254740996%Z
  /\ binary64 18446744073709551615 = 18446744073709551616%Z.
Proof. repeat split. Qed.

Lemma binary64_exact n : (n < 2 ^ 53)%Z -> binary64 n = n.
Proof. intros H. unfold binary64. by rewrite (proj2 (Z.ltb_lt _ _) H). Qed.

Lemma sort_insert_Permutation {A} (cmp : A -> A -> Z) x l :
  Permutation (sort_insert cmp x l) (x :: l).
Proof.
  induction l as [|y l IH]; [done |]. simpl.
  destruct (cmp x y <=? 0)%Z; [done |].
  rewrite IH. apply perm_swap.
Qed.

Lemma sort_Permutation {A} (cmp : A -> A -> Z) l : Permutation (sort cmp l) l.
Proof.
  induction l as [|x l IH]; [done |]. simpl.
  rewrite sort_insert_Permutation. by constructor.
Qed.

Section SortByKey.
Context {A : Type} (key : A -> Z).
Let cmp (a b : A) : Z := (key a - key b)%Z.
Let le (a b : A) : Prop := (key a <= key b)%Z.

Lemma sort_insert_HdRel x y l :
  le y x -> HdRel le y l -> HdRel le y (sort_insert cmp x l).
Proof.
  intros Hyx Hl. destruct l as [|z l]; simpl; [by constructor |].
  destruct (cmp x z <=? 0)%Z; constructor; [done |].
  by inversion Hl.
Qed.

Lemma sort_insert_Sorted x l :
  Sorted le l -> Sorted le (sort_insert cmp x l).
Proof.
  induction 1 as [|y l Hl IH Hhd]; simpl; [by repeat constructor |].
  destruct (cmp x y <=? 0)%Z eqn:Hc.
  - apply Z.leb_le in Hc. constructor; [by constructor |].
    constructor. unfold le, cmp in *. lia.
  - apply Z.leb_gt in Hc. constructor; [exact IH |].
    apply sort_insert_HdRel; [| done]. unfold le, cmp in *. lia.
Qed.

Lemma sort_Sorted l : Sorted le (sort cmp l).
Proof.
  induction l as [|x l IH]; simpl; [constructor | by apply sort_insert_Sorted].
Qed.
End SortByKey.

(** What the snapshot does satisfy: it holds the records of the collection,
    each once, in ascending order of [Number(snowflake)]. *)
Lemma saveMessageCollection_sorted (m : JSMap) :
  Permutation (saveMessageCollection m) (Map_values m)
  /\ Sorted (fun a b => (Number (snowflake a) <= Number (snowflake b))%Z)
            (saveMessageCollection m).
Proof.
  split; [apply sort_Permutation |].
  apply (sort_Sorted (fun a => Number (snowflake a))).
Qed.

(** C5 fails on the code: [Number] rounds both identifiers to the same
    binary64 value, the comparator returns 0, and the stable sort leaves
    the larger identifier before the smaller one; a run that loads the two
    records and finds nothing new writes them back in that order. *)
Theorem saveMessageCollection_rounds_snowflakes :
  isSnowflake "1234567890123456789" = true
  /\ isSnowflake "1234567890123456788" = true
  /\ (JS.digitsValue "1234567890123456788" < JS.digitsValue "1234567890123456789")%Z
  /\ Number "1234567890123456788" = Number "1234567890123456789"
  /\ map snowflake (saveMessageCollection closeCollection)
     = ["1234567890123456789"; "1234567890123456788"]
  /\ reachable quietWorld (start ∅ (Some closeSnapshot)) closeExit.
Proof.
  repeat split; try (vm_compute; congruence).
  unfold reachable.
  eapply rtc_l; [eapply step_load_resume; reflexivity |].
  eapply rtc_l; [eapply step_fetch_empty; reflexivity |].
  eapply rtc_l; [eapply step_save; reflexivity |].
  apply rtc_refl.
Qed.

(** Below [2^53] the order of the snapshot is the order of the integers. *)
Lemma saveMessageCollection_exact_below_2_53 (m : JSMap) :
  Forall (fun r => (JS.digitsValue (snowflake r) < 2 ^ 53)%Z) (Map_values m) ->
  Sorted (fun a b => (JS.digitsValue (snowflake a) <= JS.digitsValue (snowflake b))%Z)
         (saveMessageCollection m).
Proof.
  intros Hsmall.
  destruct (saveMessageCollection_sorted m) as [Hperm Hsorted].
  assert (Hall : Forall (fun r => (JS.digitsValue (snowflake r) < 2 ^ 53)%Z)
                        (saveMessageCollection m)).
  { rewrite Forall_forall in *. intros r Hr. apply Hsmall.
    apply list_elem_of_In. rewrite <- Hperm. by apply list_elem_of_In. }
  clear Hperm Hsmall.
  induction Hsorted as [|a l Hl IH Hhd]; [constructor |].
  apply Forall_cons in Hall as [Ha Hall].
  constructor; [by apply IH |].
  destruct Hhd as [|b l Hab]; constructor.
  apply Forall_cons in Hall as [Hb _].
  unfold Number in Hab. by rewrite !binary64_exact in Hab.
Qed.

(** *** The collection as a map *)

Lemma Map_has_true k m : Map_has k m = true <-> In k (map fst m).
Proof.
  unfold Map_has. rewrite existsb_exists, in_map_iff. split.
  - intros [kv [Hin Heq]]. apply String.eqb_eq in Heq. by exists kv.
  - intros [kv [Heq Hin]]. exists kv. split; [done |]. by apply String.eqb_eq.
Qed.

Lemma Map_has_false k m : Map_has k m = false <-> ~ In k (map fst m).
Proof.
  rewrite <- Map_has_true. by destruct (Map_has k m).
Qed.

Lemma Map_set_In k v m k' v' :
  In (k', v') (Map_set k v m) -> (k' = k /\ v' = v) \/ In (k', v') m.
Proof.
  induction m as [|[k0 v0] m IH]; simpl.
  - intros [[= <- <-] | []]. by left.
  - destruct (String.eqb k0 k).
    + intros [[= <- <-] | H]; [by left | right; by right].
    + intros [H | H]; [right; by left |].
      destruct (IH H) as [? | ?]; [by left | right; by right].
Qed.

Lemma Map_set_keys_fresh k v m :
  Map_has k m = false -> map fst (Map_set k v m) = (map fst m ++ [k])%list.
Proof.
  induction m as [|[k0 v0] m IH]; simpl; [done |].
  destruct (String.eqb k0 k) eqn:Hk; simpl; [done |].
  intros H. by rewrite IH.
Qed.

Lemma Map_set_keys_present k v m :
  Map_has k m = true -> map fst (Map_set k v m) = map fst m.
Proof.
  induction m as [|[k0 v0] m IH]; simpl; [done |].
  destruct (String.eqb k0 k) eqn:Hk; simpl.
  - intros _. apply String.eqb_eq in Hk. by subst.
  - intros H. by rewrite IH.
Qed.

Lemma Map_set_NoDup k v m : NoDup (map fst m) -> NoDup (map fst (Map_set k v m)).
Proof.
  intros Hnd. destruct (Map_has k m) eqn:Hk.
  - by rewrite Map_set_keys_present.
  - rewrite Map_set_keys_fresh by done.
    apply NoDup_app. split; [done |]. split; [| apply NoDup_singleton].
    intros x Hx Hx'. apply list_elem_of_singleton in Hx'. subst.
    apply Map_has_false in Hk. apply Hk. by apply list_elem_of_In.
Qed.

Lemma loadCollection_In collection m k r :
  In (k, r) (loadCollection collection m) ->
  In (k, r) m \/ (In r collection /\ k = snowflake r).
Proof.
  unfold loadCollection. revert m.
  induction collection as [|x xs IH]; intros m; simpl; [by left |].
  intros H. destruct (IH _ H) as [Hin | [Hin Hk]].
  - destruct (Map_set_In _ _ _ _ _ Hin) as [[-> ->] | ?]; [| by left].
    right. split; [by left | done].
  - right. split; [by right | done].
Qed.

Lemma loadCollection_NoDup collection m :
  NoDup (map fst m) -> NoDup (map fst (loadCollection collection m)).
Proof.
  unfold loadCollection. revert m.
  induction collection as [|x xs IH]; intros m Hm; simpl; [done |].
  by apply IH, Map_set_NoDup.
Qed.

(** ** History walker *)

(** Case analysis on a move, keeping the moves that start where the
    process is known to stand. *)
Ltac same_control :=
  repeat match goal with
         | H1 : control ?s = _, H2 : control ?s = _ |- _ =>
             rewrite H1 in H2; first [discriminate H2 | injection H2 as; subst]
         end.

Ltac step_cases H := inversion H; subst; clear H; same_control.

(** C6: a message whose id is a key of the collection is stepped over:
    the walk moves on to the next message of the page and the collection,
    the files, the requests made and the identifiers drawn are what they
    were. *)
Theorem walk_skips_archived (w : World) (s : State) (lk : JS.opt string)
    (message : Message) (queue : list Message) :
  control s = InPage lk (message :: queue) ->
  Map_has (id message) (messages s) = true ->
  step w s (withControl (InPage lk queue) s)
  /\ forall s', step w s s' ->
       control s' = InPage lk queue /\ messages s' = messages s
       /\ disk s' = disk s /\ requested s' = requested s
       /\ drawn s' = drawn s /\ metadata s' = metadata s.
Proof.
  intros Hc Hhas. split.
  - destruct (isStarboardMessage message) eqn:Hstar.
    + by eapply step_skip.
    + by eapply step_not_starboard.
  - intros s' Hstep. step_cases Hstep; try done. congruence.
Qed.

(** *** Completed records *)

Lemma getTextContent_truthy M t :
  getTextContent M = Some t -> JS.truthy (JS.Value t) = true.
Proof.
  unfold getTextContent.
  destruct (0 <? String.length _)%nat eqn:Hlen; [| done].
  intros [= <-]. simpl. destruct (JS.join _ _); [discriminate | done].
Qed.

Section Growth.
Variable w : World.
Variables d d' : gmap string string.
Variables req req' : list string.
Hypothesis disk_grows : forall p, is_Some (d !! p) -> is_Some (d' !! p).
Hypothesis requests_grow : forall u, In u req -> In u req'.

Lemma downloaded_mono a : downloaded w d req a -> downloaded w d' req' a.
Proof. intros [? ?]. split; [by apply disk_grows | by apply requests_grow]. Qed.

Lemma textSaved_mono archive count text :
  textSaved w d archive count text -> textSaved w d' archive count text.
Proof. intros H t Ht. apply disk_grows. by eapply H. Qed.

Lemma completed_mono r : completed w d req r -> completed w d' req' r.
Proof.
  intros (message & fuel & errs & ? & ? & ? & ? & ? & ? & Htext & Hall).
  exists message, fuel, errs. repeat (split; [done |]). split.
  - by apply textSaved_mono.
  - eapply Forall_impl; [exact Hall | apply downloaded_mono].
Qed.
End Growth.

Lemma insert_grows (d : gmap string string) k v p :
  is_Some (d !! p) -> is_Some (<[k := v]> d !! p).
Proof.
  intros H. destruct (decide (k = p)) as [-> | Hne].
  - rewrite lookup_insert_eq. eauto.
  - by rewrite lookup_insert_ne.
Qed.

Lemma records_grow w snapshot (ms : JSMap) d d' req req' :
  (forall p, is_Some (d !! p) -> is_Some (d' !! p)) ->
  (forall u, In u req -> In u req') ->
  (forall k r, In (k, r) ms ->
     k = snowflake r /\ (In r (default [] snapshot) \/ completed w d req r)) ->
  forall k r, In (k, r) ms ->
     k = snowflake r /\ (In r (default [] snapshot) \/ completed w d' req' r).
Proof.
  intros Hd Hreq Hrec k r Hin. destruct (Hrec k r Hin) as [Hk [Hprior | Hdone]].
  - split; [done | by left].
  - split; [done | right]. by eapply completed_mono.
Qed.

Lemma walkInv_step w snapshot s s' :
  walkInv w snapshot s -> step w s s' -> walkInv w snapshot s'.
Proof.
  intros (Hctl & Hnd & Hrec) Hstep. unfold controlInv in Hctl.
  destruct Hstep;
    match goal with
    | H : control ?s = _ |- _ => rewrite H in Hctl
    end;
    unfold walkInv, controlInv, withControl; cbn [control messages disk requested metadata].
  all: try (split; [exact I | split; [exact Hnd | exact Hrec]]).
  - (* the collection is loaded *)
    destruct Hctl as [Hempty Hsnap]. rewrite Hempty in *.
    split; [by destruct (channel_isTextBased w) |].
    split; [by apply loadCollection_NoDup |].
    intros k r Hin. apply loadCollection_In in Hin as [[] | [Hin ->]].
    split; [done | left]. rewrite <- Hsnap.
    match goal with H : metadata _ = Some _ |- _ => by rewrite H end.
  - (* a fresh output directory *)
    destruct Hctl as [Hempty Hsnap]. rewrite Hempty in *.
    split; [by destruct (channel_isTextBased w) |].
    split; [done |]. intros k r [].
  - (* [processMessage] starts *)
    cbn [t_message t_stars t_textContent phaseInv].
    split; [| split; [exact Hnd | exact Hrec]]. done.
  - (* the text is saved *)
    destruct Hctl as (Hfresh & Hstar & Hstars & Htext & _).
    assert (Hgrow : forall p, is_Some (disk s !! p) ->
              is_Some (match t_textContent t with
                       | Some textContent0 =>
                           if JS.truthy (JS.Value textContent0)
                           then <[downloadPath w (textFileName (t_archiveId t) (t_stars t))
                                  := textContent0]> (disk s)
                           else disk s
                       | None => disk s
                       end !! p)).
    { intros p Hp. destruct (t_textContent t) as [txt|]; [| done].
      destruct (JS.truthy (JS.Value txt)); [by apply insert_grows | done]. }
    split; [| split; [done | by eapply records_grow]].
    repeat (split; [done |]). cbn [phaseInv]. intros txt Htxt.
    unfold onDisk. rewrite Htxt.
    rewrite Htxt in Htext. symmetry in Htext.
    rewrite (getTextContent_truthy _ _ Htext), lookup_insert_eq. eauto.
  - (* the attachments are resolved *)
    destruct Hctl as (Hfresh & Hstar & Hstars & Htext & Hsaved).
    split; [| split; [exact Hnd | exact Hrec]].
    repeat (split; [done |]). cbn [phaseInv] in *.
    split; [eauto |]. exists []. by split.
  - (* one attachment is downloaded *)
    destruct Hctl as (Hfresh & Hstar & Hstars & Htext & Hsaved & Hres & finished & -> & Hfin).
    assert (Hreq : forall u, In u (requested s) -> In u (att_url attachment :: requested s))
      by (intros u Hu; by right).
    split; [| split; [done |]].
    + repeat (split; [done |]). cbn [phaseInv]. split.
      { eapply textSaved_mono; [apply insert_grows | done]. }
      split; [done |]. exists (finished ++ [attachment])%list.
      split; [by rewrite <- app_assoc |].
      apply Forall_app. split.
      * eapply Forall_impl; [exact Hfin |]. intros a.
        apply downloaded_mono; [apply insert_grows | done].
      * constructor; [| constructor]. split; [| by left].
        unfold onDisk. rewrite lookup_insert_eq. eauto.
    + eapply records_grow; [apply insert_grows | exact Hreq | done].
  - (* a download fails *)
    split; [done | split; [done |]].
    eapply records_grow; [| | exact Hrec]; [done | intros u Hu; by right].
  - (* the record is added *)
    destruct Hctl as (Hfresh & Hstar & Hstars & Htext & Hsaved & (fuel & errs & Hres)
                      & finished & Hall & Hfin).
    rewrite app_nil_r in Hall. subst finished.
    split; [done |]. split; [by apply Map_set_NoDup |].
    intros k r Hin. apply Map_set_In in Hin as [[-> ->] | Hin]; [| by apply Hrec].
    split; [done | right].
    exists (t_message t), fuel, errs. cbn [recordOf snowflake ma_url stars textContent
                                            archiveId ma_attachments].
    done.
Qed.

Lemma walkInv_start w files snapshot : walkInv w snapshot (start files snapshot).
Proof.
  split; [done |]. split; [constructor |]. intros k r [].
Qed.

Lemma walkInv_reachable w files snapshot s :
  reachable w (start files snapshot) s -> walkInv w snapshot s.
Proof.
  intros Hreach. unfold reachable in Hreach.
  apply (rtc_ind_r (R := step w) (fun s => walkInv w snapshot s)
           (start files snapshot));
    [apply walkInv_start | | exact Hreach].
  intros y z _ Hstep IH. by eapply walkInv_step.
Qed.

(** No run ever holds two records for one message id. *)
Lemma collection_keys_unique w files snapshot s :
  reachable w (start files snapshot) s -> NoDup (map fst (messages s)).
Proof. intros H. by destruct (walkInv_reachable _ _ _ _ H) as (_ & ? & _). Qed.

Lemma flush_writes w s s' :
  flush w s s' ->
  metadata s' = Some (saveMessageCollection (messages s))
  /\ disk s' = disk s /\ requested s' = requested s.
Proof.
  intros [Hint | [Hc Hstep]].
  - by destruct Hint.
  - step_cases Hstep. done.
Qed.

Lemma map_fst_snowflake (m : JSMap) :
  (forall k r, In (k, r) m -> k = snowflake r) ->
  map fst m = map snowflake (Map_values m).
Proof.
  unfold Map_values. induction m as [|[k r] m IH]; intros H; [done |]. simpl.
  rewrite IH by (intros k' r' Hin; apply H; by right).
  f_equal. apply H. by left.
Qed.

(** C9: whenever the collection is flushed, by [SIGINT] or at the end of
    the walk, the snapshot holds the records of the collection, one per
    message id; each of them was in the snapshot the run started from or
    is completed (text saved, attachments resolved, every attachment
    requested and written); and the message being processed at that
    moment, if any, has no record in it. *)
Theorem snapshot_holds_completed_records (w : World)
    (files : gmap string string) (snapshot : option (list MessageArchive))
    (s s' : State) :
  reachable w (start files snapshot) s ->
  flush w s s' ->
  metadata s' = Some (saveMessageCollection (messages s))
  /\ Permutation (saveMessageCollection (messages s)) (Map_values (messages s))
  /\ NoDup (map snowflake (saveMessageCollection (messages s)))
  /\ (forall r, In r (saveMessageCollection (messages s)) ->
        In r (default [] snapshot) \/ completed w (disk s') (requested s') r)
  /\ (forall lk queue t ph, control s = Processing lk queue t ph ->
        ~ In (id (t_message t))
             (map snowflake (saveMessageCollection (messages s)))).
Proof.
  intros Hreach Hflush.
  destruct (walkInv_reachable _ _ _ _ Hreach) as (Hctl & Hnd & Hrec).
  destruct (flush_writes _ _ _ Hflush) as (Hmeta & -> & ->).
  destruct (saveMessageCollection_sorted (messages s)) as [Hperm _].
  assert (Hkeys : map fst (messages s) = map snowflake (Map_values (messages s))).
  { apply map_fst_snowflake. intros k r Hin. by apply Hrec. }
  split; [done |]. split; [done |]. split; [| split].
  - rewrite Hperm, <- Hkeys. done.
  - intros r Hr. apply list_elem_of_In in Hr. rewrite Hperm in Hr.
    apply list_elem_of_In, in_map_iff in Hr as [[k r'] [Heq Hin]].
    simpl in Heq. subst r'. by apply (Hrec k r).
  - intros lk queue t ph Hc Hin. unfold controlInv in Hctl. rewrite Hc in Hctl.
    destruct Hctl as [Hfresh _]. apply Map_has_false in Hfresh. apply Hfresh.
    rewrite Hkeys. apply list_elem_of_In. rewrite <- Hperm. by apply list_elem_of_In.
Qed.

(** *** A run on a two-message channel *)

Ltac run_step lemma := eapply rtc_l; [eapply lemma; reflexivity |].

Lemma demo_reaches_between : reachable demoWorld (start ∅ None) demoBetween.
Proof.
  unfold reachable.
  run_step step_load_fresh.
  eapply rtc_l; [eapply step_fetch_page; [reflexivity | reflexivity | discriminate] |].
  run_step step_process.
  run_step step_save_text.
  eapply rtc_l; [eapply (step_resolve _ _ _ _ _ 1); reflexivity |].
  run_step step_download.
  run_step step_add.
  apply rtc_refl.
Qed.

Lemma demo_reaches_midway : reachable demoWorld (start ∅ None) demoMidway.
Proof.
  unfold reachable. etrans; [apply demo_reaches_between |].
  run_step step_process.
  run_step step_save_text.
  apply rtc_refl.
Qed.

Example demo_run_completes : reachable demoWorld (start ∅ None) demoDone.
Proof.
  unfold reachable. etrans; [apply demo_reaches_midway |].
  eapply rtc_l; [eapply (step_resolve _ _ _ _ _ 1); reflexivity |].
  run_step step_download.
  run_step step_add.
  run_step step_page_end_next.
  run_step step_fetch_empty.
  run_step step_save.
  apply rtc_refl.
Qed.

Lemma walk_skips_archived_witness :
  step demoWorld demoAgain (withControl (InPage (JS.Value "101") [demoSecond]) demoAgain)
  /\ forall s', step demoWorld demoAgain s' ->
       control s' = InPage (JS.Value "101") [demoSecond]
       /\ messages s' = messages demoAgain
       /\ disk s' = disk demoAgain /\ requested s' = requested demoAgain
       /\ drawn s' = drawn demoAgain /\ metadata s' = metadata demoAgain.
Proof.
  apply (walk_skips_archived demoWorld demoAgain (JS.Value "101") demoFirst [demoSecond]).
  - reflexivity.
  - reflexivity.
Defined.

Lemma snapshot_holds_completed_records_witness :
  metadata demoInterrupted = Some [demoFirstRecord]
  /\ Permutation [demoFirstRecord] (Map_values (messages demoMidway))
  /\ NoDup (map snowflake [demoFirstRecord])
  /\ (forall r, In r [demoFirstRecord] ->
        In r [] \/ completed demoWorld (disk demoInterrupted)
                     (requested demoInterrupted) r)
  /\ (forall lk queue t ph, control demoMidway = Processing lk queue t ph ->
        ~ In (id (t_message t)) (map snowflake [demoFirstRecord])).
Proof.
  apply (snapshot_holds_completed_records demoWorld ∅ None demoMidway demoInterrupted).
  - apply demo_reaches_midway.
  - left. apply (interrupt_flush demoMidway). split; discriminate.
Defined.

(** * Further properties *)

(** ** Decimal numerals *)



Lemma of_uint_acc_fold d acc :
  Z.pos (Pos.of_uint_acc d acc) = uintFold d (Z.pos acc).
Proof.
  revert acc. induction d; intros acc; cbn [Pos.of_uint_acc uintFold];
    [done | rewrite IHd; f_equal; lia ..].
Qed.

Lemma of_uint_fold d : Z.of_N (Pos.of_uint d) = uintFold d 0.
Proof.
  induction d; cbn [Pos.of_uint uintFold]; [done | exact IHd | ..];
    cbn [Z.of_N]; by rewrite of_uint_acc_fold.
Qed.

Lemma digits_fold d acc :
  fold_left (fun acc c => 10 * acc + (Z.of_nat (nat_of_ascii c) - 48))%Z
    (list_ascii_of_string (NilEmpty.string_of_uint d)) acc
  = uintFold d acc.
Proof.
  revert acc. induction d; intros acc; [done | ..];
    cbn [NilEmpty.string_of_uint list_ascii_of_string fold_left uintFold];
    rewrite IHd; f_equal.
Qed.

Lemma digits_all d :
  forallb JS.isDigit (list_ascii_of_string (NilEmpty.string_of_uint d)) = true.
Proof. induction d; [done | exact IHd ..]. Qed.

Lemma Number_toString_pos p :
  JS.Number_toString (Z.pos p) = NilEmpty.string_of_uint (Pos.to_uint p).
Proof.
  unfold JS.Number_toString. cbn [Z.to_int NilZero.string_of_int].
  unfold NilZero.string_of_uint.
  pose proof (DecimalPos.Unsigned.to_uint_nonnil p) as Hp.
  by destruct (Pos.to_uint p).
Qed.

(** Printing a natural number and reading the digits back gives the
    number; the numeral is a non-empty string of digits. *)
Lemma digitsValue_toString n :
  (0 <= n)%Z -> JS.digitsValue (JS.Number_toString n) = n.
Proof.
  intros Hn. destruct n as [|p|p]; [done | | lia].
  rewrite Number_toString_pos. unfold JS.digitsValue.
  rewrite digits_fold, <- of_uint_fold, DecimalPos.Unsigned.of_to. done.
Qed.

Lemma toString_digits n :
  (0 <= n)%Z ->
  forallb JS.isDigit (list_ascii_of_string (JS.Number_toString n)) = true
  /\ JS.Number_toString n <> EmptyString.
Proof.
  intros Hn. destruct n as [|p|p]; [done | | lia].
  rewrite Number_toString_pos. split; [apply digits_all |].
  pose proof (DecimalPos.Unsigned.to_uint_nonnil p) as Hp.
  by destruct (Pos.to_uint p).
Qed.

Lemma toString_inj a b :
  (0 <= a)%Z -> (0 <= b)%Z -> JS.Number_toString a = JS.Number_toString b -> a = b.
Proof.
  intros Ha Hb H. rewrite <- (digitsValue_toString a Ha), <- (digitsValue_toString b Hb).
  by rewrite H.
Qed.

(** ** Star counts *)

Lemma substring_all s : substring 0 (String.length s) s = s.
Proof. induction s as [|c s IH]; simpl; [done | by rewrite IH]. Qed.

Lemma drop_append p s : JS.drop (String.length p) (p +:+ s) = s.
Proof.
  unfold JS.drop. induction p as [|c p IH]; simpl.
  - rewrite Nat.sub_0_r. apply substring_all.
  - exact IH.
Qed.

Lemma startsWith_append p s : JS.startsWith (p +:+ s) p = true.
Proof. apply startsWith_spec. by exists s. Qed.

Lemma spanDigits_append ds c rest :
  forallb JS.isDigit (list_ascii_of_string ds) = true ->
  JS.isDigit c = false ->
  JS.spanDigits (ds +:+ String c rest) = (ds, String c rest).
Proof.
  intros Hds Hc. induction ds as [|d ds IH]; simpl in *.
  - by rewrite Hc.
  - apply andb_true_iff in Hds as [Hd Hds]. by rewrite Hd, (IH Hds).
Qed.


Lemma starCountRegex_at_headed ds rest :
  ds <> EmptyString ->
  forallb JS.isDigit (list_ascii_of_string ds) = true ->
  starCountRegex_at (starPrefix +:+ ds +:+ "**" +:+ rest) = Some ds.
Proof.
  intros Hne Hds. unfold starCountRegex_at.
  rewrite startsWith_append, drop_append.
  change ("**" +:+ rest) with (String "*" (String "*" rest)).
  rewrite (spanDigits_append ds "*" (String "*" rest) Hds eq_refl).
  destruct (String.eqb_spec ds EmptyString); done.
Qed.


Lemma starCountRegex_match_head s ds :
  starCountRegex_at s = Some ds -> starCountRegex_match s = Some ds.
Proof.
  intros H. unfold starCountRegex_match.
  destruct s; cbn [JS.suffixes list_find]; rewrite decide_True by (rewrite H; eauto);
    simpl; exact H.
Qed.



(** X1: a body that opens with the star, the bold markup and the decimal
    numeral of a natural number below [2^53] gives that number back,
    whatever follows the closing asterisks. *)
Theorem getStars_reads_printed_count (M : Message) (n : Z) (rest : string) :
  (0 <= n < 2 ^ 53)%Z ->
  content M = starPrefix +:+ JS.Number_toString n +:+ "**" +:+ rest ->
  getStars M = n.
Proof.
  intros [Hn _] Hbody. unfold getStars. rewrite Hbody.
  destruct (toString_digits n Hn) as [Hds Hne].
  rewrite (starCountRegex_match_head _ _ (starCountRegex_at_headed _ rest Hne Hds)).
  by apply digitsValue_toString.
Qed.

Lemma getStars_reads_printed_count_witness :
  getStars (sampleMessage "⭐ **42** <#123>" true []) = 42%Z.
Proof.
  apply (getStars_reads_printed_count _ 42 " <#123>"); [lia | reflexivity].
Defined.


(** ** Local file names *)

Lemma append_inj_l p a b : p +:+ a = p +:+ b -> a = b.
Proof. induction p as [|c p IH]; simpl; [done |]. intros [= H]. by apply IH. Qed.

Lemma digits_before_dot ds1 ds2 x y :
  forallb JS.isDigit (list_ascii_of_string ds1) = true ->
  forallb JS.isDigit (list_ascii_of_string ds2) = true ->
  ds1 +:+ String "." x = ds2 +:+ String "." y -> ds1 = ds2.
Proof.
  revert ds2. induction ds1 as [|c ds1 IH]; intros [|c' ds2] H1 H2 H; simpl in *.
  - done.
  - injection H as <- _. apply andb_true_iff in H2 as [H2 _]. discriminate H2.
  - injection H as -> _. apply andb_true_iff in H1 as [H1 _]. discriminate H1.
  - injection H as <- H.
    apply andb_true_iff in H1 as [_ H1]. apply andb_true_iff in H2 as [_ H2].
    f_equal. by apply IH.
Qed.

Lemma fileName_index_inj archiveId stars i j e e' :
  fileName archiveId stars i e = fileName archiveId stars j e' -> i = j.
Proof.
  unfold fileName. intros H.
  do 4 apply append_inj_l in H.
  apply digits_before_dot in H; try (apply toString_digits; lia).
  apply toString_inj in H; lia.
Qed.

Lemma fileName_not_text archiveId stars i e :
  fileName archiveId stars i e <> textFileName archiveId stars.
Proof.
  unfold fileName, textFileName. intros H.
  do 3 apply append_inj_l in H.
  change ("-stars_textcontent.txt") with ("-stars_" +:+ "textcontent.txt") in H.
  apply append_inj_l in H.
  destruct (toString_digits (Z.of_nat i) ltac:(lia)) as [Hds Hne].
  destruct (JS.Number_toString (Z.of_nat i)) as [|c ds]; [done |].
  simpl in H, Hds. injection H as -> _. discriminate Hds.
Qed.

Lemma getAttachments_loop_names urls archiveId stars n attachments :
  getAttachments_loop urls archiveId stars n = Some attachments ->
  exists exts,
    map localFile attachments
    = imap (fun i e => fileName archiveId stars (n + i) e) exts.
Proof.
  revert n attachments. induction urls as [|u urls IH]; intros n attachments H.
  - injection H as <-. by exists [].
  - destruct u as [| |attachment]; [done | done |]. cbn [getAttachments_loop] in H.
    destruct (negb (JS.truthy (rawExt attachment))); [by apply IH |].
    destruct (getAttachments_loop urls archiveId stars (S n)) as [tail|] eqn:Ht;
      [| done].
    simpl in H. injection H as <-.
    destruct (IH _ _ Ht) as [exts Hexts].
    exists (stripLarge (JS.printed (rawExt attachment)) :: exts).
    cbn [map imap localFile]. rewrite Nat.add_0_r, Hexts. f_equal.
    apply imap_ext. intros i e _. simpl. f_equal. lia.
Qed.

Lemma imap_index_NoDup {A B} (f : nat -> A -> B) (l : list A) :
  (forall i j x y, f i x = f j y -> i = j) -> NoDup (imap f l).
Proof.
  intros Hinj. apply NoDup_alt. intros i j b Hi Hj.
  rewrite list_lookup_imap in Hi, Hj.
  destruct (l !! i) as [x|]; [| done]. destruct (l !! j) as [y|]; [| done].
  simpl in *. injection Hi as <-. injection Hj as Hj. symmetry in Hj.
  by eapply Hinj.
Qed.

(** X3: the attachments of one record get pairwise different local file
    names, none of which is the name of the record's text file: the files
    of a record never overwrite one another. *)
Theorem getAttachments_names_distinct (urls : list (JS.opt string))
    (archiveId : string) (stars : Z) (attachments : list ArchivedAttachment) :
  getAttachments_loop urls archiveId stars 0 = Some attachments ->
  NoDup (map localFile attachments)
  /\ ~ In (textFileName archiveId stars) (map localFile attachments).
Proof.
  intros H. destruct (getAttachments_loop_names _ _ _ _ _ H) as [exts ->]. split.
  - apply imap_index_NoDup. intros i j x y Hxy.
    by apply fileName_index_inj in Hxy.
  - intros Hin. apply list_elem_of_In, list_elem_of_lookup in Hin as [i Hi].
    rewrite list_lookup_imap in Hi. destruct (exts !! i) as [e|]; [| done].
    simpl in Hi. injection Hi as Hi. by apply fileName_not_text in Hi.
Qed.

Lemma getAttachments_names_distinct_witness :
  NoDup ["6f1c_12-stars_0.png"; "6f1c_12-stars_1.png"]
  /\ ~ In "6f1c_12-stars_textcontent.txt"
          ["6f1c_12-stars_0.png"; "6f1c_12-stars_1.png"].
Proof.
  apply (getAttachments_names_distinct
           [JS.Value "https://cdn.discordapp.com/a/cat.png";
            JS.Value "https://example.com/noext.";
            JS.Value "https://cdn.discordapp.com/b/cat.png"]
           "6f1c" 12
           [{| att_url := "https://cdn.discordapp.com/a/cat.png";
               localFile := "6f1c_12-stars_0.png" |};
            {| att_url := "https://cdn.discordapp.com/b/cat.png";
               localFile := "6f1c_12-stars_1.png" |}]).
  reflexivity.
Defined.

(** ** Extensions *)

Lemma in_append_l c s t :
  In c (list_ascii_of_string s) -> In c (list_ascii_of_string (s +:+ t)).
Proof.
  induction s as [|a s IH]; simpl; [done |]. intros [-> | H]; [by left | right; auto].
Qed.

Lemma append_empty_r s : s +:+ EmptyString = s.
Proof. induction s as [|a s IH]; [done |]. exact (f_equal (String a) IH). Qed.

Lemma append_assoc' s t r : (s +:+ t) +:+ r = s +:+ t +:+ r.
Proof. induction s as [|a s IH]; [done |]. exact (f_equal (String a) IH). Qed.

(** X4: the extension [getAttachments] reads off a URL is the text that
    follows the last ['.'] of the whole URL (the URL itself when it has
    none), up to the first ['?'] after it; the extension in the file name
    is that text without one trailing [':large'], and holds neither a
    ['.'] nor a ['?']. *)
Theorem extension_is_after_last_dot (u : string) :
  exists before ext after,
    rawExt u = JS.Value ext
    /\ u = before +:+ ext +:+ after
    /\ (before = EmptyString \/ exists b, before = b +:+ ".")
    /\ (after = EmptyString \/ exists query, after = String "?" query)
    /\ ~ In "."%char (list_ascii_of_string (ext +:+ after))
    /\ ~ In "?"%char (list_ascii_of_string ext)
    /\ ~ In "."%char (list_ascii_of_string (extensionOf u))
    /\ ~ In "?"%char (list_ascii_of_string (extensionOf u)).
Proof.
  destruct (rawExt_spec u) as (segment & ext & Hraw & Hu & Hdot & Hseg & Hq).
  assert (Hstem : forall c, In c (list_ascii_of_string (extensionOf u)) ->
                            In c (list_ascii_of_string ext)).
  { unfold extensionOf. rewrite Hraw. cbn [JS.printed].
    destruct (stripLarge_spec ext) as [(stem & -> & ->) | [_ ->]]; [| done].
    intros c. apply in_append_l. }
  assert (Hext : forall c, In c (list_ascii_of_string ext) ->
                           In c (list_ascii_of_string segment)).
  { destruct Hseg as [-> | [query ->]]; [done |]. intros c. apply in_append_l. }
  assert (exists after, segment = ext +:+ after
            /\ (after = EmptyString \/ exists query, after = String "?" query))
    as (after & -> & Hafter).
  { destruct Hseg as [-> | [query ->]].
    - exists EmptyString. split; [| by left]. by rewrite append_empty_r.
    - exists (String "?" query). split; [done | right; eauto]. }
  assert (exists before, u = before +:+ ext +:+ after
            /\ (before = EmptyString \/ exists b, before = b +:+ "."))
    as (before & -> & Hbefore).
  { destruct Hu as [-> | [b ->]].
    - exists EmptyString. split; [done | by left].
    - exists (b +:+ "."). split; [| right; eauto].
      by rewrite append_assoc'. }
  exists before, ext, after. repeat (split; [done |]). split.
  - intros H. by apply Hdot, Hext, Hstem.
  - intros H. by apply Hq, Hstem.
Qed.

(** ** References that come back *)

(** X5: a message with a content-delivery button and a permalink button
    that leads back to the message itself never resolves: the two
    resolvers call each other without end, so [getAttachments] never
    settles and the walk never gets past the message. *)
Theorem self_reference_never_settles (c : Client) (M : Message)
    (ms : list (JS.opt Message)) :
  hasCdnButton M = true ->
  promiseAll (map (fetchLinked c) (buttonUrls isPermalink M)) = Fetched ms ->
  In (JS.Value M) ms ->
  forall fuel archiveId stars,
    getAttachmentUrls c fuel M = None
    /\ getAttachments c fuel M archiveId stars = Pending.
Proof.
  intros Hcdn Hall Hin.
  assert (Hnone : forall fuel, getAttachmentUrls c fuel M = None).
  { induction fuel as [|fuel IH]; [done |].
    rewrite getAttachmentUrls_unfold, Hcdn.
    unfold getAdvancedAttachments, getAdvancedAttachments_with. rewrite Hall.
    assert (mapM (resolveLinked (getAttachmentUrls c fuel)) ms = None) as ->; [| done].
    apply mapM_None. apply Exists_exists. exists (JS.Value M).
    split; [by apply list_elem_of_In |]. simpl. by rewrite IH. }
  intros fuel archiveId stars. split; [done |].
  unfold getAttachments. by rewrite Hnone.
Qed.

Lemma self_reference_never_settles_witness :
  getAttachmentUrls loopClient 25 loopMessage = None
  /\ getAttachments loopClient 25 loopMessage "6f1c" 2 = Pending.
Proof.
  apply (self_reference_never_settles loopClient loopMessage [JS.Value loopMessage]).
  - reflexivity.
  - reflexivity.
  - left. reflexivity.
Defined.

(** ** The order of the snapshot *)

Section StableSort.
Context {A : Type} (key : A -> Z).
Let cmp (a b : A) : Z := (key a - key b)%Z.




End StableSort.


(** *** Loading a snapshot *)

Lemma Map_set_fresh k v m :
  Map_has k m = false -> Map_set k v m = (m ++ [(k, v)])%list.
Proof.
  induction m as [|[k0 v0] m IH]; simpl; [done |].
  destruct (String.eqb k0 k); simpl; [done |]. intros H. by rewrite IH.
Qed.

Lemma Map_has_app k m1 m2 : Map_has k (m1 ++ m2)%list = Map_has k m1 || Map_has k m2.
Proof. unfold Map_has. apply existsb_app. Qed.





Lemma Map_set_In_iff k' v m k r :
  NoDup (map fst m) ->
  In (k, r) (Map_set k' v m) <-> (k = k' /\ r = v) \/ (k <> k' /\ In (k, r) m).
Proof.
  induction m as [|[k0 v0] m IH]; simpl; intros Hnd.
  - split.
    + intros [[= <- <-] | []]. by left.
    + intros [[-> ->] | [_ []]]. by left.
  - apply NoDup_cons in Hnd as [Hk0 Hnd].
    destruct (String.eqb_spec k0 k') as [-> | Hne]; simpl.
    + split.
      * intros [[= <- <-] | Hin]; [by left | right].
        split; [| by right]. intros ->. apply Hk0.
        apply list_elem_of_In, in_map_iff. by exists (k', r).
      * intros [[-> ->] | [Hk [[= <- _] | Hin]]]; [by left | done | by right].
    + rewrite (IH Hnd). split.
      * intros [[= <- <-] | [? | [? ?]]]; [right; split; [done | by left] | by left |].
        right. split; [done | by right].
      * intros [? | [? [[= <- <-] | ?]]]; [right; by left | by left |].
        right. right. by split.
Qed.

Lemma loadCollection_snoc collection x m :
  loadCollection (collection ++ [x]) m
  = Map_set (snowflake x) x (loadCollection collection m).
Proof. unfold loadCollection. by rewrite fold_left_app. Qed.

(** X8: when a snapshot lists an id more than once, loading keeps one
    record for it, the last one in the file: the collection holds a record
    exactly when no later record of the file has its snowflake. *)
Theorem loadCollection_last_wins (collection : list MessageArchive)
    (k : string) (r : MessageArchive) :
  In (k, r) (loadCollection collection []) <->
  exists earlier later,
    collection = (earlier ++ r :: later)%list
    /\ k = snowflake r
    /\ ~ In (snowflake r) (map snowflake later).
Proof.
  revert k r. induction collection as [|x collection IH] using rev_ind; intros k r.
  - split; [intros [] |]. intros (earlier & later & H & _). by destruct earlier.
  - rewrite loadCollection_snoc.
    rewrite Map_set_In_iff by (apply loadCollection_NoDup; constructor).
    rewrite IH. split.
    + intros [[-> ->] | (Hne & earlier & later & -> & -> & Hlater)].
      * exists collection, []. split; [done |]. split; [done |]. intros [].
      * exists earlier, (later ++ [x])%list. split; [by rewrite <- app_assoc |].
        split; [done |]. rewrite map_app, in_app_iff. simpl. intros [? | [? | []]]; auto.
    + intros (earlier & later & Heq & -> & Hlater).
      destruct later as [|y later _] using rev_ind.
      * apply app_inj_tail in Heq as [-> ->]. by left.
      * rewrite app_comm_cons, app_assoc in Heq.
        apply app_inj_tail in Heq as [-> ->].
        rewrite map_app, in_app_iff in Hlater. simpl in Hlater. right. split.
        -- intros Heq. apply Hlater. right. left. done.
        -- exists earlier, later. split; [done |]. split; [done |].
           intros ?. apply Hlater. by left.
Qed.

(** ** Archiving one message *)







(** ** The walk as a whole *)

Lemma step_extends w snapshot s s' :
  walkInv w snapshot s -> step w s s' ->
  exists added, messages s' = (messages s ++ added)%list.
Proof.
  intros (Hctl & _ & _) Hstep. unfold controlInv in Hctl.
  destruct Hstep;
    match goal with
    | H : control ?s = _ |- _ => rewrite H in Hctl
    end;
    cbn [messages withControl];
    try (exists []; by rewrite app_nil_r).
  - destruct Hctl as [-> _]. by eexists.
  - destruct Hctl as [Hfresh _]. rewrite Map_set_fresh by done. by eexists.
Qed.

(** X11: a run only ever appends to the collection: whatever it does
    after a state it has reached, the records that state held are still
    there, unchanged and in the same order, before any record added
    since. *)
Theorem collection_only_grows (w : World) (files : gmap string string)
    (snapshot : option (list MessageArchive)) (s s' : State) :
  reachable w (start files snapshot) s ->
  reachable w s s' ->
  exists added, messages s' = (messages s ++ added)%list.
Proof.
  intros Hreach Hrun. apply walkInv_reachable in Hreach.
  unfold reachable in Hrun.
  induction Hrun as [s | s s1 s' Hstep _ IH].
  - exists []. by rewrite app_nil_r.
  - destruct (step_extends _ _ _ _ Hreach Hstep) as [added1 H1].
    destruct (IH (walkInv_step _ _ _ _ Hreach Hstep)) as [added2 H2].
    exists (added1 ++ added2)%list. by rewrite H2, H1, app_assoc.
Qed.

Lemma demo_between_to_done : reachable demoWorld demoBetween demoDone.
Proof.
  unfold reachable.
  eapply rtc_l; [eapply step_process; reflexivity |].
  eapply rtc_l; [eapply step_save_text; reflexivity |].
  eapply rtc_l; [eapply (step_resolve _ _ _ _ _ 1); reflexivity |].
  eapply rtc_l; [eapply step_download; reflexivity |].
  eapply rtc_l; [eapply step_add; reflexivity |].
  eapply rtc_l; [eapply step_page_end_next; reflexivity |].
  eapply rtc_l; [eapply step_fetch_empty; reflexivity |].
  eapply rtc_l; [eapply step_save; reflexivity |].
  apply rtc_refl.
Qed.

Lemma collection_only_grows_witness :
  exists added, messages demoDone = (messages demoBetween ++ added)%list.
Proof.
  apply (collection_only_grows demoWorld ∅ None demoBetween demoDone).
  - apply demo_reaches_between.
  - apply demo_between_to_done.
Defined.

Lemma skipped_run w lk queue s :
  control s = InPage lk queue ->
  Forall (skipped s) queue ->
  rtc (step w) s (withControl (InPage lk []) s).
Proof.
  revert s. induction queue as [|message queue IH]; intros s Hc Hskip.
  - destruct s. simpl in Hc. subst. apply rtc_refl.
  - apply Forall_cons in Hskip as [Hm Hskip].
    eapply rtc_l.
    + destruct (isStarboardMessage message) eqn:Hstar.
      * destruct Hm as [? | Hhas]; [congruence |]. by eapply step_skip.
      * by eapply step_not_starboard.
    + apply (IH (withControl (InPage lk queue) s) eq_refl Hskip).
Qed.

Lemma lastKey_rev newest older :
  lastKey (rev (newest :: older)) = JS.Value (id newest).
Proof. unfold lastKey. simpl. by rewrite last_snoc. Qed.

(** X12: a page in which every message is not a starboard post or is
    already archived costs nothing: nothing is drawn, requested, written
    or added, and the walk goes on from the newest message of the page
    (or to the final save when that message's id is empty). *)
Theorem archived_page_changes_nothing (w : World) (s : State) (messageId : string)
    (newest : Message) (older : list Message) :
  control s = AtFetch messageId ->
  messages_fetch_after w messageId = Fetched (newest :: older) ->
  Forall (skipped s) (newest :: older) ->
  reachable w s
    (withControl (if JS.truthy (JS.Value (id newest))
                  then AtFetch (id newest) else AtSave) s).
Proof.
  intros Hc Hpage Hskip. unfold reachable.
  eapply rtc_l; [by eapply step_fetch_page |].
  rewrite lastKey_rev. etrans.
  { eapply (skipped_run w (JS.Value (id newest)) (rev (newest :: older)));
      [reflexivity |].
    apply Forall_forall. intros m Hm. apply list_elem_of_In, in_rev in Hm.
    rewrite Forall_forall in Hskip. apply Hskip. by apply list_elem_of_In. }
  destruct (JS.truthy (JS.Value (id newest))) eqn:Hkey.
  - eapply rtc_l; [by eapply step_page_end_next |]. apply rtc_refl.
  - eapply rtc_l; [by eapply step_page_end_break |]. apply rtc_refl.
Qed.

Lemma archived_page_changes_nothing_witness :
  reachable demoWorld demoRescan (withControl (AtFetch "102") demoRescan).
Proof.
  apply (archived_page_changes_nothing demoWorld demoRescan "100" demoSecond [demoFirst]).
  - reflexivity.
  - reflexivity.
  - constructor; [by right |]. constructor; [by right | constructor].
Defined.

(** X13: a run that finds no message after the starting point ends with
    a snapshot of what it loaded: when there was a snapshot the files are
    left alone and the snapshot is written again in sorted order; when
    there was none the output directory is emptied and the snapshot is
    the empty list.  Nothing is requested and no identifier is drawn. *)
Theorem quiet_run_rewrites_snapshot (w : World) (files : gmap string string)
    (snapshot : option (list MessageArchive)) :
  channel_isTextBased w = true ->
  messages_fetch_after w (startingMessageId w) = Fetched [] ->
  reachable w (start files snapshot) (quietExit files snapshot).
Proof.
  intros Hchannel Hempty. unfold reachable, quietExit, loaded.
  destruct snapshot as [collection|].
  - eapply rtc_l; [by eapply step_load_resume |]. rewrite Hchannel.
    eapply rtc_l; [by eapply step_fetch_empty |].
    eapply rtc_l; [by eapply step_save |]. apply rtc_refl.
  - eapply rtc_l; [by eapply step_load_fresh |]. rewrite Hchannel.
    eapply rtc_l; [by eapply step_fetch_empty |].
    eapply rtc_l; [by eapply step_save |]. apply rtc_refl.
Qed.

Lemma quiet_run_rewrites_snapshot_witness :
  reachable quietWorld (start demoFirstFiles None) (quietExit demoFirstFiles None).
Proof.
  apply (quiet_run_rewrites_snapshot quietWorld demoFirstFiles None);
    reflexivity.
Defined.

(** X14: when the configured channel is not a text channel the process
    exits without walking and without saving: it requests nothing, draws
    no identifier and never writes the snapshot, but a run that found no
    snapshot has emptied the output directory all the same. *)
Theorem stray_channel_saves_nothing (w : World) (files : gmap string string)
    (snapshot : option (list MessageArchive)) (s : State) :
  channel_isTextBased w = false ->
  reachable w (start files snapshot) s ->
  metadata s = snapshot /\ requested s = [] /\ drawn s = 0
  /\ (control s = Starting /\ disk s = files
      \/ control s = Exited
         /\ messages s = loaded snapshot
         /\ disk s = match snapshot with Some _ => files | None => ∅ end).
Proof.
  intros Hchannel Hreach. unfold reachable in Hreach.
  apply (rtc_ind_r (R := step w)
           (fun s => metadata s = snapshot /\ requested s = [] /\ drawn s = 0
              /\ (control s = Starting /\ messages s = [] /\ disk s = files
                  \/ control s = Exited
                     /\ messages s = loaded snapshot
                     /\ disk s = match snapshot with Some _ => files | None => ∅ end))
           (start files snapshot)) in Hreach.
  - destruct Hreach as (? & ? & ? & [(? & _ & ?) | ?]); eauto 10.
  - repeat (split; [done |]). left. done.
  - intros y z _ Hstep (Hmeta & Hreq & Hdrawn & Hc).
    destruct Hc as [(Hc & Hmsgs & Hdisk) | (Hc & _)];
      destruct Hstep; same_control;
      cbn [metadata requested drawn control messages disk]; rewrite Hchannel.
    + repeat (split; [done |]). right. unfold loaded.
      rewrite Hmsgs, <- Hmeta.
      match goal with H : metadata _ = Some _ |- _ => rewrite H end. done.
    + split; [congruence |]. repeat (split; [done |]). right. unfold loaded.
      rewrite Hmsgs, <- Hmeta.
      match goal with H : metadata _ = None |- _ => rewrite H end. done.
Qed.

Lemma stray_reaches_exit : reachable strayWorld (start demoFirstFiles None) strayExit.
Proof.
  unfold reachable. eapply rtc_l; [eapply step_load_fresh; reflexivity |]. apply rtc_refl.
Qed.

Lemma stray_channel_saves_nothing_witness :
  metadata strayExit = None /\ requested strayExit = [] /\ drawn strayExit = 0
  /\ (control strayExit = Starting /\ disk strayExit = demoFirstFiles
      \/ control strayExit = Exited
         /\ messages strayExit = loaded None
         /\ disk strayExit = ∅).
Proof.
  apply (stray_channel_saves_nothing strayWorld demoFirstFiles None strayExit).
  - reflexivity.
  - apply stray_reaches_exit.
Defined.

(** ** Identifiers *)

Lemma identifiersUsed_S w snapshot n :
  identifiersUsed w snapshot (S n)
  = (identifiersUsed w snapshot n ++ [uuidV4 w n])%list.
Proof.
  unfold identifiersUsed. rewrite seq_S, map_app, app_assoc. done.
Qed.

Lemma drawnInv_step w snapshot s s' :
  walkInv w snapshot s -> drawnInv w snapshot s -> step w s s' ->
  drawnInv w snapshot s'.
Proof.
  intros (Hctl & _ & _) Hids Hstep. unfold controlInv in Hctl. unfold drawnInv in *.
  destruct Hstep;
    match goal with
    | H : control ?s = _ |- _ => rewrite H in Hctl, Hids
    end;
    unfold withControl, identifiersOf in *;
    cbn [control messages drawn] in *;
    try done; try (by eauto).
  - destruct Hctl as [-> Hmeta], Hids as [_ ->].
    assert (map archiveId (Map_values (loadCollection collection []))
            = identifiersUsed w snapshot 0) as Hload.
    { unfold identifiersUsed, loaded. rewrite <- Hmeta.
      match goal with H : metadata _ = Some _ |- _ => rewrite H end.
      simpl. by rewrite app_nil_r. }
    destruct (channel_isTextBased w); [done | eauto].
  - destruct Hctl as [Hmsgs Hmeta], Hids as [_ Hd]. rewrite Hmsgs, Hd.
    assert ([] = identifiersUsed w snapshot 0) as Hload.
    { unfold identifiersUsed, loaded. rewrite <- Hmeta.
      match goal with H : metadata _ = None |- _ => rewrite H end. done. }
    destruct (channel_isTextBased w); [done | eauto].
  - destruct Hids as (n & ? & ? & ?). eauto.
  - destruct Hids as (n & ? & ? & ?). eauto.
  - destruct Hctl as [Hfresh _], Hids as (n & -> & Hid & Hids).
    rewrite Map_set_fresh by done.
    unfold Map_values. rewrite !map_app. simpl.
    unfold Map_values in Hids. rewrite Hids, Hid. symmetry. apply identifiersUsed_S.
Qed.

Lemma drawnInv_reachable w files snapshot s :
  reachable w (start files snapshot) s -> drawnInv w snapshot s.
Proof.
  intros Hreach. unfold reachable in Hreach.
  assert (walkInv w snapshot s /\ drawnInv w snapshot s) as [_ H]; [| exact H].
  apply (rtc_ind_r (R := step w)
           (fun s => walkInv w snapshot s /\ drawnInv w snapshot s)
           (start files snapshot)); [| | exact Hreach].
  - split; [apply walkInv_start | done].
  - intros y z _ Hstep [Hinv Hids]. split.
    + by eapply walkInv_step.
    + by eapply drawnInv_step.
Qed.

(** X15: identifiers are used in the order they are drawn, none skipped
    and none used twice: once the snapshot is loaded, the identifiers of
    the records in memory are those of the loaded records followed by the
    first [n] identifiers [uuidV4] returned, where [n] is the number
    drawn, or one less while the last one drawn has no record yet. *)
Theorem identifiers_follow_draws (w : World) (files : gmap string string)
    (snapshot : option (list MessageArchive)) (s : State) :
  reachable w (start files snapshot) s ->
  control s <> Starting ->
  exists n, identifiersOf s = identifiersUsed w snapshot n
            /\ (drawn s = n \/ drawn s = S n).
Proof.
  intros Hreach Hc. apply drawnInv_reachable in Hreach. unfold drawnInv in Hreach.
  destruct (control s); try done; try (by eauto).
  destruct Hreach as (n & ? & _ & ?). eauto.
Qed.

Lemma identifiers_follow_draws_witness :
  exists n, identifiersOf demoDone = identifiersUsed demoWorld None n
            /\ (drawn demoDone = n \/ drawn demoDone = S n).
Proof.
  apply (identifiers_follow_draws demoWorld ∅ None demoDone).
  - apply demo_run_completes.
  - discriminate.
Defined.

Lemma identifiersUsed_NoDup w snapshot n :
  (forall i j, uuidV4 w i = uuidV4 w j -> i = j) ->
  NoDup (map archiveId (Map_values (loaded snapshot))) ->
  (forall i, ~ In (uuidV4 w i) (map archiveId (Map_values (loaded snapshot)))) ->
  NoDup (identifiersUsed w snapshot n).
Proof.
  intros Hinj Hloaded Hnew.
  unfold identifiersUsed. apply NoDup_app. split; [done |]. split.
  - intros x Hx Hx'. apply list_elem_of_In, in_map_iff in Hx' as (i & <- & _).
    apply (Hnew i). by apply list_elem_of_In.
  - apply NoDup_fmap_2_strong; [| apply NoDup_seq].
    intros i j _ _. apply Hinj.
Qed.

(** X16: when [uuidV4] never returns the same identifier twice, nor one
    that a loaded record has, and the loaded records have identifiers of
    their own, no two records in memory share an identifier, at any point
    of the run. *)
Theorem identifiers_are_distinct (w : World) (files : gmap string string)
    (snapshot : option (list MessageArchive)) (s : State) :
  (forall i j, uuidV4 w i = uuidV4 w j -> i = j) ->
  NoDup (map archiveId (Map_values (loaded snapshot))) ->
  (forall i, ~ In (uuidV4 w i) (map archiveId (Map_values (loaded snapshot)))) ->
  reachable w (start files snapshot) s ->
  NoDup (identifiersOf s).
Proof.
  intros Hinj Hloaded Hnew Hreach.
  pose proof (fun n => identifiersUsed_NoDup w snapshot n Hinj Hloaded Hnew) as Hn.
  apply drawnInv_reachable in Hreach. unfold drawnInv in Hreach.
  destruct (control s).
  - destruct Hreach as [Hmsgs _]. unfold identifiersOf. rewrite Hmsgs. constructor.
  - by rewrite Hreach.
  - by rewrite Hreach.
  - destruct Hreach as (n & _ & _ & ->). apply Hn.
  - by rewrite Hreach.
  - destruct Hreach as (n & -> & _). apply Hn.
  - destruct Hreach as (n & -> & _). apply Hn.
Qed.

Lemma identifiers_are_distinct_witness : NoDup (identifiersOf demoDone).
Proof.
  apply (identifiers_are_distinct demoWorld ∅ None demoDone).
  - intros i j H. apply (append_inj_l "uuid-") in H.
    apply toString_inj in H; lia.
  - constructor.
  - intros i [].
  - apply demo_run_completes.
Defined.

(** ** What makes [getAttachments] throw *)

(** X17: the loop of [getAttachments] throws exactly when the resolved
    list holds an element that is not a string; on a list of strings it
    always returns. *)
Theorem getAttachments_loop_throws_iff (urls : list (JS.opt string))
    (archiveId : string) (stars : Z) (n : nat) :
  getAttachments_loop urls archiveId stars n = None
  <-> exists u, In u urls /\ definedUrl u = None.
Proof.
  revert n. induction urls as [|u urls IH]; intros n.
  - split; [done | by intros (u & [] & _)].
  - destruct u as [| |attachment].
    + split; [| done]. intros _. exists JS.Undefined. split; [by left | done].
    + split; [| done]. intros _. exists JS.Null. split; [by left | done].
    + cbn [getAttachments_loop].
      assert (Htail : forall k,
                getAttachments_loop urls archiveId stars k = None
                <-> exists u, In u (JS.Value attachment :: urls) /\ definedUrl u = None).
      { intros k. rewrite IH. split.
        - intros (u & Hin & Hu). exists u. split; [by right | done].
        - intros (u & [<- | Hin] & Hu); [done | eauto]. }
      destruct (negb (JS.truthy (rawExt attachment))); [apply Htail |].
      rewrite <- (Htail (S n)).
      by destruct (getAttachments_loop urls archiveId stars (S n)).
Qed.

(** ** How far [Number] is from the identifier *)





